(** * yavl: schema checkers, their status tracker and the AND combinator

    A shallow embedding of the two revisions of the library found in the
    repository:

    - [Legacy]  : [src/index.js], the checker with [matches] / [coerce] /
                  [validate] and a status made of a path, definitions and
                  failures;
    - [Scoring] : the revision that travels with [src/checks/and.js], whose
                  methods are [matches] / [cast] / [validate] and whose status
                  also keeps a weighted [quality].

    JavaScript values, the heap of error objects and the pieces of the status
    tracker that both revisions spell the same way come first. *)

From Stdlib Require Import ZArith Floats DecimalString Lia.
From stdpp Require Import base strings list gmap.

Local Open Scope string_scope.

(** ** JavaScript values *)

Module JS.

(** Numbers that occur as data: the integers that a binary64 holds exactly
    and prints digit by digit (the safe integers, of magnitude below 2^53),
    and [NaN].  Weights and quality scores are kept apart, as binary64
    floats. *)
Inductive number : Type :=
| NInt (z : Z)
| NNaN.

(** The primitive values; symbols are outside the model. *)
Inductive prim : Type :=
| PUndefined
| PNull
| PBool (b : bool)
| PNum (n : number)
| PStr (s : string).

(** The class of an object is what [_.isArray], [_.isDate], ... look at.
    A wrapper object ([new String(..)], [Object(5)] and the like) carries
    the primitive it wraps, which nothing can change. *)
Inductive ObjClass : Type :=
| CObject | CArray | CDate | CRegExp | CFunction | CError
| CString (s : string) | CNumber (n : number) | CBoolean (b : bool).

Definition loc := nat.

(** An object is known by its address: two objects are the same value
    exactly when they are the same object. *)
Inductive value : Type :=
| VPrim (p : prim)
| VObj (c : ObjClass) (l : loc).

Coercion VPrim : prim >-> value.

Definition undefined : value := VPrim PUndefined.
Definition null : value := VPrim PNull.
Definition true_ : value := VPrim (PBool true).
Definition false_ : value := VPrim (PBool false).

#[global] Instance number_eq_dec : EqDecision number.
Proof. solve_decision. Defined.
#[global] Instance prim_eq_dec : EqDecision prim.
Proof. solve_decision. Defined.
#[global] Instance ObjClass_eq_dec : EqDecision ObjClass.
Proof. solve_decision. Defined.
#[global] Instance value_eq_dec : EqDecision value.
Proof. solve_decision. Defined.

(** ToBoolean *)
Definition truthy_prim (p : prim) : bool :=
  match p with
  | PUndefined | PNull => false
  | PBool b => b
  | PNum (NInt z) => negb (z =? 0)%Z
  | PNum NNaN => false
  | PStr s => negb (String.eqb s "")
  end.

Definition truthy (v : value) : bool :=
  match v with
  | VPrim p => truthy_prim p
  | VObj _ _ => true
  end.

(** The primitive inside a wrapper object. *)
Definition wrapped (c : ObjClass) : option prim :=
  match c with
  | CString s => Some (PStr s)
  | CNumber n => Some (PNum n)
  | CBoolean b => Some (PBool b)
  | _ => None
  end.

(** The class of the object [Object(p)] makes of a primitive. *)
Definition wrapper (p : prim) : ObjClass :=
  match p with
  | PStr s => CString s
  | PNum n => CNumber n
  | PBool b => CBoolean b
  | PUndefined | PNull => CObject
  end.

(** Number::toString on the numbers of the model. *)
Definition number_to_string (n : number) : string :=
  match n with
  | NInt z => NilZero.string_of_int (Z.to_int z)
  | NNaN => "NaN"
  end.

(** ToString on primitives. *)
Definition prim_to_string (p : prim) : string :=
  match p with
  | PUndefined => "undefined"
  | PNull => "null"
  | PBool true => "true"
  | PBool false => "false"
  | PNum n => number_to_string n
  | PStr s => s
  end.

(** The strict equality [===]: by content on primitives, with
    [NaN !== NaN]; by identity on objects. *)
Definition strict_equals (a b : value) : bool :=
  match a, b with
  | VPrim (PNum NNaN), _ | _, VPrim (PNum NNaN) => false
  | _, _ => bool_decide (a = b)
  end.

(** lodash's type predicates; [_.isString], [_.isNumber] and [_.isBoolean]
    also answer [true] for the wrapper objects. *)
Definition isUndefined (v : value) : bool :=
  match v with VPrim PUndefined => true | _ => false end.
Definition isNull (v : value) : bool :=
  match v with VPrim PNull => true | _ => false end.
Definition isString (v : value) : bool :=
  match v with VPrim (PStr _) | VObj (CString _) _ => true | _ => false end.
Definition isNumber (v : value) : bool :=
  match v with VPrim (PNum _) | VObj (CNumber _) _ => true | _ => false end.
Definition isBoolean (v : value) : bool :=
  match v with VPrim (PBool _) | VObj (CBoolean _) _ => true | _ => false end.
Definition isObject (v : value) : bool :=
  match v with VObj _ _ => true | _ => false end.
Definition isArray (v : value) : bool :=
  match v with VObj CArray _ => true | _ => false end.
Definition isDate (v : value) : bool :=
  match v with VObj CDate _ => true | _ => false end.

(** ** The heap

    Error objects live in the heap, so that mutating one is seen through
    every reference to it.  [cells] are the variables a custom checker may
    close over. *)
Record ErrorObj : Type := mkError {
  err_name : string;
  err_message : option string;   (* [None]: no message property *)
}.

Record Heap : Type := mkHeap {
  errors : gmap loc ErrorObj;
  cells : gmap string value;
}.

Definition empty_heap : Heap := {| errors := ∅; cells := ∅ |}.

(** How a call ends: with a value, or with a thrown error object (what the
    library and the host throw are error objects; [throw] of another value is
    left out). *)
Inductive completion (A : Type) : Type :=
| Normal (a : A)
| Thrown (err : loc).
Arguments Normal {A} a.
Arguments Thrown {A} err.

(** [err.message], read as the condition of [err.message ? .. : ..]: the
    message when it is a non-empty string. *)
Definition message_of (h : Heap) (err : loc) : option string :=
  match errors h !! err with
  | Some e =>
      match err_message e with
      | Some m => if String.eqb m "" then None else Some m
      | None => None
      end
  | None => None
  end.

(** [_.set(err, 'message', m)] *)
Definition set_message (err : loc) (m : string) (h : Heap) : Heap :=
  {| errors := alter (fun e => {| err_name := err_name e; err_message := Some m |}) err (errors h);
     cells := cells h |}.

End JS.
Import JS.

(** ** The path stack and the failure list

    [push], [pop] and the recording of a failure are written identically in
    both revisions; these are their bodies on the bare arrays. *)

Module PathStack.

(** [_.compact]: drop the falsy entries. *)
Definition compact (xs : list prim) : list prim := filter (fun p => truthy_prim p = true) xs.

(** [path = _.compact(path.concat(name))]: the extra keys, then the name. *)
Definition pushed (name : prim) (keys : list prim) : list prim := compact (keys ++ [name]).

(** [_.times(count, _.bind(this.path.pop, this.path))] *)
Definition pop_times (count : nat) (path : list prim) : list prim :=
  Nat.iter count (@removelast prim) path.

(** [Array.prototype.join]: [null] and [undefined] entries print empty. *)
Definition join_elem (p : prim) : string :=
  match p with
  | PUndefined | PNull => ""
  | _ => prim_to_string p
  end.

Definition join (path : list prim) : string := String.concat "." (map join_elem path).

(** [failure.startsWith(path)] *)
Definition startsWith (failure path : string) : bool := String.prefix path failure.

(** [if (!_.some(this.failures, _.method('startsWith', path))) this.failures.push(path)] *)
Definition record_failure (path : string) (failures : list string) : list string :=
  if existsb (fun failure => startsWith failure path) failures
  then failures
  else failures ++ [path].

(** [path || 'any'] *)
Definition or_any (path : string) : string :=
  if String.eqb path "" then "any" else path.

End PathStack.
Import PathStack.


(** ** The host

    What the code takes from JavaScript and lodash and the value model above
    does not determine: conversions that run an object's own methods, and
    constructors that build fresh objects.  [HeapOp] lets them allocate and
    throw. *)

Definition HeapOp (A : Type) : Type := Heap -> completion A * Heap.

(** What [JSON.parse] makes of a text when it does not throw: a primitive, or
    a freshly built array or object. *)
Inductive parsed : Type :=
| ParsedPrim (p : prim)
| ParsedObject (c : ObjClass).

Class Host : Type := {
  (** [String(o)] and [Number(o)] on an object [o] *)
  object_to_string : ObjClass -> loc -> HeapOp string;
  object_to_number : ObjClass -> loc -> HeapOp number;
  (** [Number(s)] on a string *)
  string_to_number : string -> number;
  (** the address of a fresh object, as [Object(p)] builds one *)
  allocate : Heap -> loc * Heap;
  (** [[value]]: a fresh one-element array *)
  array_of : value -> HeapOp value;
  (** [new Date(value)] *)
  new_Date : value -> HeapOp value;
  (** [JSON.parse(text)]; [None] is a syntax error *)
  JSON_text : string -> option parsed;
  (** [JSON.stringify(value)] *)
  JSON_stringify : value -> HeapOp value;
}.

Section Builtins.
Context `{Host}.

(** [String] called as a function; a wrapper object prints the primitive it
    wraps, as the [toString] of its prototype does. *)
Definition String_ (v : value) : HeapOp value :=
  fun h =>
    match v with
    | VPrim p => (Normal (VPrim (PStr (prim_to_string p))), h)
    | VObj c l =>
        match wrapped c with
        | Some p => (Normal (VPrim (PStr (prim_to_string p))), h)
        | None =>
            match object_to_string c l h with
            | (Normal s, h') => (Normal (VPrim (PStr s)), h')
            | (Thrown e, h') => (Thrown e, h')
            end
        end
    end.

(** ToNumber on primitives. *)
Definition prim_to_number (p : prim) : number :=
  match p with
  | PUndefined => NNaN
  | PNull => NInt 0
  | PBool b => NInt (if b then 1 else 0)
  | PNum n => n
  | PStr s => string_to_number s
  end.

(** [Number] called as a function; a wrapper object gives the number of the
    primitive it wraps, as the [valueOf] of its prototype does. *)
Definition Number_ (v : value) : HeapOp value :=
  fun h =>
    match v with
    | VPrim p => (Normal (VPrim (PNum (prim_to_number p))), h)
    | VObj c l =>
        match wrapped c with
        | Some p => (Normal (VPrim (PNum (prim_to_number p))), h)
        | None =>
            match object_to_number c l h with
            | (Normal n, h') => (Normal (VPrim (PNum n)), h')
            | (Thrown e, h') => (Thrown e, h')
            end
        end
    end.

(** [Boolean] called as a function: every object is truthy, a wrapper of
    [false] too. *)
Definition Boolean_ (v : value) : HeapOp value :=
  fun h => (Normal (VPrim (PBool (truthy v))), h).

(** [Object] called as a function: an object is returned as it is, a
    primitive in a fresh wrapper object ([null] and [undefined] give a fresh
    plain object). *)
Definition Object_ (v : value) : HeapOp value :=
  fun h =>
    match v with
    | VObj c l => (Normal (VObj c l), h)
    | VPrim p => let '(l, h') := allocate h in (Normal (VObj (wrapper p) l), h')
    end.

(** [_.castArray] *)
Definition castArray (v : value) : HeapOp value :=
  fun h => if isArray v then (Normal v, h) else array_of v h.

(** [_.constant(undefined)] *)
Definition constant_undefined (v : value) : HeapOp value :=
  fun h => (Normal undefined, h).

(** The text of what [_.isString] takes for a string: a primitive string
    or a [String] object, which [JSON.parse] reads by its text. *)
Definition string_text (v : value) : option string :=
  match v with
  | VPrim (PStr s) | VObj (CString s) _ => Some s
  | _ => None
  end.

(** [isJson]: [_.isString(value) && JSON.parse(value) && true], [false]
    when parsing throws.  The parsed value is only tested, so nothing it
    allocates is kept. *)
Definition isJson (v : value) : value :=
  match string_text v with
  | Some s =>
      match JSON_text s with
      | Some (ParsedPrim p) => if truthy_prim p then true_ else VPrim p
      | Some (ParsedObject _) => true_
      | None => false_
      end
  | None => false_
  end.

(** [function (value) { return _.isDate(value) ? value : new Date(value); }] *)
Definition date_cast (v : value) : HeapOp value :=
  fun h => if isDate v then (Normal v, h) else new_Date v h.

(** [function (value) { return isJson(value) ? value : JSON.stringify(value); }] *)
Definition json_cast (v : value) : HeapOp value :=
  fun h => if truthy (isJson v) then (Normal v, h) else JSON_stringify v h.

End Builtins.

(** ** The scoring revision: [src/checks/and.js] and the index it requires *)

Module Scoring.

(** [as.Status] *)
Record Status : Type := mkStatus {
  path : list prim;
  defs : gmap string value;
  quality : float;
  failures : list string;
}.

(** [new as.Status(defs)] *)
Definition new_Status (defs : option (gmap string value)) : Status :=
  {| path := []; defs := default ∅ defs; quality := 0%float; failures := [] |}.

(** [as.Status.prototype.push]: returns the number of segments pushed. *)
Definition push (name : prim) (keys : list prim) (s : Status) : nat * Status :=
  let path' := pushed name keys in
  (length path',
   {| path := path s ++ path'; defs := defs s; quality := quality s; failures := failures s |}).

(** [as.Status.prototype.pop] *)
Definition pop (count : nat) (s : Status) : Status :=
  {| path := pop_times count (path s); defs := defs s; quality := quality s;
     failures := failures s |}.

(** [as.Status.prototype.succeeded]; [result] is the truth value of its
    first argument. *)
Definition succeeded (result : bool) (weight : option float) (s : Status) : string * Status :=
  let weight := match weight with None => 1%float | Some w => w end in
  let p := join (path s) in
  (or_any p,
   if result
   then {| path := path s; defs := defs s; quality := (quality s + weight)%float;
           failures := failures s |}
   else {| path := path s; defs := defs s; quality := (quality s - weight)%float;
           failures := record_failure p (failures s) |}).

(** *** Calls: a result or a thrown error, the status and the heap after *)

Record Result (A : Type) : Type := mkResult {
  res : completion A;
  st : Status;
  hp : Heap;
}.
Arguments mkResult {A} res st hp.
Arguments res {A} r.
Arguments st {A} r.
Arguments hp {A} r.

(** A function body that was handed a status: it runs in the state of that
    status and of the heap. *)
Definition M (A : Type) : Type := Status -> Heap -> Result A.

Definition ret {A} (a : A) : M A := fun s h => mkResult (Normal a) s h.

Definition bind {A B} (m : M A) (k : A -> M B) : M B :=
  fun s h =>
    let r := m s h in
    match res r with
    | Normal a => k a (st r) (hp r)
    | Thrown e => mkResult (Thrown e) (st r) (hp r)
    end.

(** A host operation, which does not see the status. *)
Definition lift {A} (op : HeapOp A) : M A :=
  fun s h => let '(c, h') := op h in mkResult c s h'.

Declare Scope js_scope.
Delimit Scope js_scope with js.
Notation "x <- m ;; k" := (bind m (fun x => k))
  (at level 100, m at next level, right associativity) : js_scope.

(** A raw method, [function (value, status)]. *)
Definition RawMethod : Type := value -> M value.

(** A method of a hydrated checker, [function (value, status, key...)]: the
    status may be left out, the keys are the arguments after it. *)
Definition Method : Type := value -> option Status -> list prim -> Heap -> Result value.

(** [m(value, status, key...)] from inside a body that holds [status]. *)
Definition call (m : Method) (v : value) (keys : list prim) : M value :=
  fun s h => m v (Some s) keys h.

Inductive MethodName : Type := matches_ | cast_ | validate_.

(** A raw checker object. *)
Record RawChecker : Type := mkRaw {
  raw_matches : RawMethod;
  raw_cast : RawMethod;
  raw_validate : RawMethod;
}.

(** [check[methodName]] *)
Definition raw_method (check : RawChecker) (methodName : MethodName) : RawMethod :=
  match methodName with
  | matches_ => raw_matches check
  | cast_ => raw_cast check
  | validate_ => raw_validate check
  end.

(** A hydrated checker: the [name] property and the three wrapped methods.
    The chaining methods ([and], [or], ...) are functions of the checker,
    below. *)
Record Checker : Type := mkChecker {
  name : prim;
  matches : Method;
  cast : Method;
  validate : Method;
}.

Definition method (c : Checker) (methodName : MethodName) : Method :=
  match methodName with
  | matches_ => matches c
  | cast_ => cast c
  | validate_ => validate c
  end.

(** [as.indirect] *)
Definition indirect (getMethod : MethodName -> Method) : Method * Method * Method :=
  (getMethod matches_, getMethod cast_, getMethod validate_).

(** The function [bindStatus(methodName)] returns inside [as.check]. *)
Definition bindStatus (check : RawChecker) (name : prim) (weight : option float)
    (methodName : MethodName) : Method :=
  let method := raw_method check methodName in
  fun value status keys h =>
    (* status || (status = new as.Status()) *)
    let status := default (new_Status None) status in
    let '(count, status) := push name keys status in
    (* try *)
    let r := method value status h in
    let r :=
      match res r with
      | Normal result =>
          let success :=
            match methodName with matches_ => truthy result | _ => true end in
          mkResult (Normal result) (snd (succeeded success weight (st r))) (hp r)
      | Thrown err =>
          (* catch *)
          match message_of (hp r) err with
          | Some message =>
              let '(at_, status) := succeeded false weight (st r) in
              mkResult (Thrown err) status
                (set_message err (message +:+ " at " +:+ at_) (hp r))
          | None => r
          end
      end in
    (* finally *)
    mkResult (res r) (pop count (st r)) (hp r).

(** [as.check] *)
Definition check (check : RawChecker) (name : prim) (weight : option float) : Checker :=
  let '(m, c, v) := indirect (bindStatus check name weight) in
  {| name := name; matches := m; cast := c; validate := v |}.

(** *** Schema descriptions and the table of chaining methods *)

(** The constructors and the [JSON] object that [as1] switches on. *)
Inductive Builtin : Type :=
| BError | BArray | BObject | BBoolean | BString | BNumber | BDate | BFunction | BJSON.

(** What may be passed to [as]: the cases [as1] tells apart. *)
#[local] Unset Elimination Schemes.
Inductive What : Type :=
| WBuiltin (b : Builtin)
| WArray (items : list What)
| WRegExp (source : string)
| WFunction (f : loc)                      (* a function that is no checker *)
| WChecker (c : Checker)                   (* [what.__isChecker] *)
| WObject (fields : list (string * What))  (* any other object *)
| WPrim (p : prim).
#[local] Set Elimination Schemes.

(** The chaining methods and checker factories whose files are not part of
    the repository's sources ([./checks] apart from [and], and
    [./checks/function], [./checks/instanceof]); each takes the checker it
    is called on and its arguments. *)
Class Checks : Type := {
  or_ : Checker -> list What -> Checker;
  with_ : Checker -> list What -> Checker;
  regexp_ : Checker -> list What -> Checker;
  eq_ : Checker -> list What -> Checker;
  function_ : list What -> Checker;
  instanceof_ : list What -> Checker;
}.

(** [as], seen as the raw checker it is before [as.check(as, null, 0)]:
    [_.constant(true)], [_.identity], [_.identity]. *)
Definition as_raw : RawChecker :=
  {| raw_matches := fun _ => ret true_;
     raw_cast := fun value => ret value;
     raw_validate := fun value => ret value |}.

(** [as.check(as, null, 0)].  [as] is a function, and the [name] of a
    function is not writable: outside strict mode [check.name = name] leaves
    it as it was, ['as'].  The wrapped methods push the [null] they closed
    over. *)
Definition as_checker : Checker :=
  let c := check as_raw PNull (Some 0%float) in
  {| name := PStr "as"; matches := matches c; cast := cast c; validate := validate c |}.

(** Modelled from the spec: the static checker factory [./checks/static],
    which is not among the repository's sources.  It "pairs a predicate, a
    coercion function, and a failure message" and hydrates them under the
    given name and weight; [validate] "delegates to coerce". *)
Definition static_raw (matches : value -> value) (cast : value -> HeapOp value) :
    RawChecker :=
  {| raw_matches := fun value => ret (matches value);
     raw_cast := fun value => lift (cast value);
     raw_validate := fun value => lift (cast value) |}.

Definition staticCheck (name : string) (matches : value -> value)
    (cast : value -> HeapOp value) (message : string) (weight : option float) : Checker :=
  check (static_raw matches cast) (PStr name) weight.

(** A lodash predicate as a function to JavaScript booleans. *)
Definition predicate (p : value -> bool) : value -> value :=
  fun value => VPrim (PBool (p value)).

Definition TYPE_WEIGHT : float := 0.5%float.

(** The object literal of [src/checks/and.js], with [left] and [right] as
    it closes over them. *)
Definition and_raw (left right : Checker) : RawChecker :=
  {| raw_matches := fun value =>
       (r <- call (matches left) value [] ;;
        if truthy r
        then (v <- call (cast left) value [] ;; call (matches right) v [name left])
        else ret r)%js;
     raw_cast := fun value =>
       (v <- call (cast left) value [] ;; call (cast right) v [name left])%js;
     raw_validate := fun value =>
       (v <- call (validate left) value [] ;; call (validate right) v [name left])%js |}.

Section Dispatcher.
Context `{Host} `{Checks}.

(** [function (value) { return _.isUndefined(value) || _.isNull(value) ? '' : String(value); }] *)
Definition string_cast (v : value) : HeapOp value :=
  fun h => if isUndefined v || isNull v then (Normal (VPrim (PStr "")), h) else String_ v h.

(** The [statics]. *)
Definition as_error : Checker :=
  staticCheck "error" (predicate isUndefined) constant_undefined "Not allowed" None.
Definition as_object : Checker :=
  staticCheck "object" (predicate isObject) Object_ "Not an object" (Some TYPE_WEIGHT).
Definition as_array : Checker :=
  staticCheck "array" (predicate isArray) castArray "Not an array" (Some TYPE_WEIGHT).
Definition as_boolean : Checker :=
  staticCheck "boolean" (predicate isBoolean) Boolean_ "Not a boolean" (Some TYPE_WEIGHT).
Definition as_string : Checker :=
  staticCheck "string" (predicate isString) string_cast "Not a string" (Some TYPE_WEIGHT).
Definition as_number : Checker :=
  staticCheck "number" (predicate isNumber) Number_ "Not a number" (Some TYPE_WEIGHT).
Definition as_date : Checker :=
  staticCheck "date" (predicate isDate) date_cast "Not a date" (Some TYPE_WEIGHT).
Definition as_json : Checker :=
  staticCheck "json" isJson json_cast "Not JSON" (Some TYPE_WEIGHT).

(** [as1] *)
Definition as1 (what : What) : Checker :=
  match what with
  | WBuiltin BError => as_error
  | WBuiltin BArray => as_array
  | WBuiltin BObject => as_object
  | WBuiltin BBoolean => as_boolean
  | WBuiltin BString => as_string
  | WBuiltin BNumber => as_number
  | WBuiltin BDate => as_date
  | WBuiltin BFunction => function_ []
  | WBuiltin BJSON => as_json
  | WArray _ => with_ as_array [what]
  | WRegExp _ => regexp_ as_checker [what]
  | WFunction _ => instanceof_ [what]
  | WChecker c => c
  | WObject _ => with_ as_object [what]
  | WPrim _ => eq_ as_checker [what]
  end.

(** [as(what...)] *)
Fixpoint as_ (arguments : list What) : Checker :=
  match arguments with
  | [] => as_checker
  | what :: rest =>
      match rest with
      | [] => as1 what
      | _ :: _ => or_ (as1 what) [WChecker (as_ rest)]
      end
  end.

(** [src/checks/and.js]: [left.and(what...)] hydrates [and_raw left right],
    the object literal of its three methods, anonymous and at weight 0. *)
Definition and_ (left : Checker) (what : list What) : Checker :=
  let right := as_ what in
  check (and_raw left right) PNull (Some 0%float). (* Logical operator has no weight *)

End Dispatcher.

End Scoring.

(** ** The earlier revision: [src/index.js] *)

Module Legacy.

(** [as.Status] *)
Record Status : Type := mkStatus {
  path : list prim;
  defs : gmap string value;
  failures : list string;
}.

(** [new as.Status()] *)
Definition new_Status : Status := {| path := []; defs := ∅; failures := [] |}.

(** [as.Status.prototype.push] *)
Definition push (name : prim) (keys : list prim) (s : Status) : nat * Status :=
  let path' := pushed name keys in
  (length path', {| path := path s ++ path'; defs := defs s; failures := failures s |}).

(** [as.Status.prototype.pop] *)
Definition pop (count : nat) (s : Status) : Status :=
  {| path := pop_times count (path s); defs := defs s; failures := failures s |}.

(** [as.Status.prototype.failed] *)
Definition failed (s : Status) : string * Status :=
  let p := join (path s) in
  (or_any p, {| path := path s; defs := defs s; failures := record_failure p (failures s) |}).

Record Result (A : Type) : Type := mkResult {
  res : completion A;
  st : Status;
  hp : Heap;
}.
Arguments mkResult {A} res st hp.
Arguments res {A} r.
Arguments st {A} r.
Arguments hp {A} r.

Definition M (A : Type) : Type := Status -> Heap -> Result A.

Definition ret {A} (a : A) : M A := fun s h => mkResult (Normal a) s h.

Definition lift {A} (op : HeapOp A) : M A :=
  fun s h => let '(c, h') := op h in mkResult c s h'.

Definition RawMethod : Type := value -> M value.

Definition Method : Type := value -> option Status -> list prim -> Heap -> Result value.

Inductive MethodName : Type := matches_ | coerce_ | validate_.

Record RawChecker : Type := mkRaw {
  raw_matches : RawMethod;
  raw_coerce : RawMethod;
  raw_validate : RawMethod;
}.

(** [check[m]] *)
Definition raw_method (check : RawChecker) (m : MethodName) : RawMethod :=
  match m with
  | matches_ => raw_matches check
  | coerce_ => raw_coerce check
  | validate_ => raw_validate check
  end.

Record Checker : Type := mkChecker {
  name : prim;
  matches : Method;
  coerce : Method;
  validate : Method;
}.

Definition method (c : Checker) (m : MethodName) : Method :=
  match m with
  | matches_ => matches c
  | coerce_ => coerce c
  | validate_ => validate c
  end.

(** [as.indirect] *)
Definition indirect (method : MethodName -> Method) : Method * Method * Method :=
  (method matches_, method coerce_, method validate_).

(** The function [bindStatus(m)] returns inside [as.check]. *)
Definition bindStatus (check : RawChecker) (name : prim) (m : MethodName) : Method :=
  let f := raw_method check m in
  fun value status keys h =>
    (* status || (status = new as.Status()) *)
    let status := default new_Status status in
    let '(count, status) := push name keys status in
    (* try *)
    let r := f value status h in
    let r :=
      match res r with
      | Normal result =>
          (* (m !== 'matches' || result) ? result : !status.failed() *)
          if match m with matches_ => truthy result | _ => true end
          then r
          else
            let '(at_, status) := failed (st r) in
            mkResult (Normal (VPrim (PBool (negb (truthy (VPrim (PStr at_))))))) status (hp r)
      | Thrown err =>
          (* catch *)
          match message_of (hp r) err with
          | Some message =>
              let '(at_, status) := failed (st r) in
              mkResult (Thrown err) status
                (set_message err (message +:+ " at " +:+ at_) (hp r))
          | None => r
          end
      end in
    (* finally *)
    mkResult (res r) (pop count (st r)) (hp r).

(** [as.check] *)
Definition check (check : RawChecker) (name : prim) : Checker :=
  let '(m, c, v) := indirect (bindStatus check name) in
  {| name := name; matches := m; coerce := c; validate := v |}.

Inductive Builtin : Type :=
| BError | BArray | BObject | BBoolean | BString | BNumber | BDate | BFunction | BJSON.

(** What may be passed to [as]: the cases [as1] tells apart. *)
#[local] Unset Elimination Schemes.
Inductive What : Type :=
| WBuiltin (b : Builtin)
| WArray (items : list What)
| WRegExp (source : string)
| WChecker (c : Checker)                   (* [what.__isChecker] *)
| WObject (fields : list (string * What))  (* any other object or function *)
| WPrim (p : prim).
#[local] Set Elimination Schemes.

(** The entries of [as.checks] that [as] and [as1] call, and
    [./check/function]; none of their files is among the repository's
    sources. *)
Class Checks : Type := {
  or_ : Checker -> list What -> Checker;
  with_ : Checker -> list What -> Checker;
  regexp_ : Checker -> list What -> Checker;
  eq_ : Checker -> list What -> Checker;
  function_ : list What -> Checker;
}.

(** [as.matches = _.constant(true); as.coerce = _.identity; as.validate = _.identity] *)
Definition as_raw : RawChecker :=
  {| raw_matches := fun _ => ret true_;
     raw_coerce := fun value => ret value;
     raw_validate := fun value => ret value |}.

(** [as.check(as)]: the name closed over is [undefined]; the [name]
    property of the function [as] stays ['as']. *)
Definition as_checker : Checker :=
  let c := check as_raw PUndefined in
  {| name := PStr "as"; matches := matches c; coerce := coerce c; validate := validate c |}.

(** Modelled from the spec: the static checker factory [./check/static],
    which is not among the repository's sources.  It "pairs a predicate, a
    coercion function, and a failure message" and hydrates them under the
    given name; [validate] "delegates to coerce". *)
Definition static_raw (matches : value -> value) (coerce : value -> HeapOp value) :
    RawChecker :=
  {| raw_matches := fun value => ret (matches value);
     raw_coerce := fun value => lift (coerce value);
     raw_validate := fun value => lift (coerce value) |}.

Definition staticCheck (name : string) (matches : value -> value)
    (coerce : value -> HeapOp value) (message : string) : Checker :=
  check (static_raw matches coerce) (PStr name).

Definition predicate (p : value -> bool) : value -> value :=
  fun value => VPrim (PBool (p value)).

Section Dispatcher.
Context `{Host} `{Checks}.

Definition as_error : Checker :=
  staticCheck "error" (predicate isUndefined) constant_undefined "Not allowed".
Definition as_object : Checker :=
  staticCheck "object" (predicate isObject) Object_ "Not an object".
Definition as_array : Checker :=
  staticCheck "array" (predicate isArray) castArray "Not an array".
Definition as_boolean : Checker :=
  staticCheck "boolean" (predicate isBoolean) Boolean_ "Not a boolean".
Definition as_string : Checker :=
  staticCheck "string" (predicate isString) String_ "Not a string".
Definition as_number : Checker :=
  staticCheck "number" (predicate isNumber) Number_ "Not a number".
Definition as_date : Checker :=
  staticCheck "date" (predicate isDate) date_cast "Not a date".
Definition as_json : Checker :=
  staticCheck "json" isJson json_cast "Not JSON".

(** [as1] *)
Definition as1 (what : What) : Checker :=
  match what with
  | WBuiltin BError => as_error
  | WBuiltin BArray => as_array
  | WBuiltin BObject => as_object
  | WBuiltin BBoolean => as_boolean
  | WBuiltin BString => as_string
  | WBuiltin BNumber => as_number
  | WBuiltin BDate => as_date
  | WBuiltin BFunction => function_ []
  | WBuiltin BJSON => as_json
  | WArray _ => with_ as_array [what]
  | WRegExp _ => regexp_ as_checker [what]
  | WChecker c => c
  | WObject _ => with_ as_object [what]
  | WPrim _ => eq_ as_checker [what]
  end.

(** [as(what...)]: with several arguments, the first is resolved and the
    array of the others is handed to its [or]. *)
Definition as_ (arguments : list What) : Checker :=
  match arguments with
  | [] => as_checker
  | what :: rest =>
      match rest with
      | [] => as1 what
      | _ :: _ => or_ (as1 what) [WArray rest]
      end
  end.

End Dispatcher.

End Legacy.

(** * Properties *)

(** ** A host and a table of checks to evaluate examples in

    Every object that is no wrapper prints as [[object Object]], every fresh
    object is put at address 0, no text parses as JSON, and the checks whose
    files are missing all answer with the universal checker.
    The examples below only evaluate primitives and checkers defined above,
    so none of these entries decides an outcome. *)

Definition sample_host : Host :=
  {| object_to_string := fun _ _ h => (Normal "[object Object]", h);
     object_to_number := fun _ _ h => (Normal NNaN, h);
     string_to_number := fun _ => NNaN;
     allocate := fun h => (0, h);
     array_of := fun _ h => (Normal (VObj CArray 0), h);
     new_Date := fun _ h => (Normal (VObj CDate 0), h);
     JSON_text := fun _ => None;
     JSON_stringify := fun _ h => (Normal undefined, h) |}.

Definition sample_checks : Scoring.Checks :=
  {| Scoring.or_ := fun _ _ => Scoring.as_checker;
     Scoring.with_ := fun _ _ => Scoring.as_checker;
     Scoring.regexp_ := fun _ _ => Scoring.as_checker;
     Scoring.eq_ := fun _ _ => Scoring.as_checker;
     Scoring.function_ := fun _ => Scoring.as_checker;
     Scoring.instanceof_ := fun _ => Scoring.as_checker |}.

Definition sample_legacy_checks : Legacy.Checks :=
  {| Legacy.or_ := fun _ _ => Legacy.as_checker;
     Legacy.with_ := fun _ _ => Legacy.as_checker;
     Legacy.regexp_ := fun _ _ => Legacy.as_checker;
     Legacy.eq_ := fun _ _ => Legacy.as_checker;
     Legacy.function_ := fun _ => Legacy.as_checker |}.

(** ** Vocabulary *)

(** The status a wrapped method hands to the raw one: the caller's, or a new
    one, with the name and the keys pushed. *)
Definition entered (name : prim) (keys : list prim) (status : option Scoring.Status) :
    Scoring.Status :=
  snd (Scoring.push name keys (default (Scoring.new_Status None) status)).

Definition legacy_entered (name : prim) (keys : list prim) (status : option Legacy.Status) :
    Legacy.Status :=
  snd (Legacy.push name keys (default Legacy.new_Status status)).

(** A raw method that leaves the path stack as long as it found it, however
    it ends. *)
Definition path_neutral (f : Scoring.RawMethod) : Prop :=
  forall v s h, length (Scoring.path (Scoring.st (f v s h))) = length (Scoring.path s).

(** The same of a body that holds a status. *)
Definition neutral {A} (c : Scoring.M A) : Prop :=
  forall s h, length (Scoring.path (Scoring.st (c s h))) = length (Scoring.path s).

Definition legacy_path_neutral (f : Legacy.RawMethod) : Prop :=
  forall v s h, length (Legacy.path (Legacy.st (f v s h))) = length (Legacy.path s).

(** A wrapped method after which the path stack is as long as before, however
    it ends; without a status, the new one counts. *)
Definition balanced (m : Scoring.Method) : Prop :=
  forall v status keys h,
    length (Scoring.path (Scoring.st (m v status keys h))) =
    length (Scoring.path (default (Scoring.new_Status None) status)).

Definition legacy_balanced (m : Legacy.Method) : Prop :=
  forall v status keys h,
    length (Legacy.path (Legacy.st (m v status keys h))) =
    length (Legacy.path (default Legacy.new_Status status)).

(** Checkers composed by the code at hand: hydrated raw checkers whose own
    methods are path-neutral, [as] itself, and conjunctions of composed
    checkers. *)
Inductive Composed `{Host} `{Scoring.Checks} : Scoring.Checker -> Prop :=
| Composed_check (raw : Scoring.RawChecker) (name : prim) (weight : option float) :
    (forall m, path_neutral (Scoring.raw_method raw m)) ->
    Composed (Scoring.check raw name weight)
| Composed_as : Composed Scoring.as_checker
| Composed_and (left : Scoring.Checker) (what : list Scoring.What) :
    Composed left -> Composed (Scoring.as_ what) ->
    Composed (Scoring.and_ left what).

(** A call that returned a truthy value. *)
Definition says_yes (r : Scoring.Result value) : bool :=
  match Scoring.res r with
  | Normal v => truthy v
  | Thrown _ => false
  end.

(** [throw err], for an error object that is in the heap. *)
Definition throw (err : loc) : Scoring.M value :=
  fun s h => Scoring.mkResult (Thrown err) s h.

(** A checker whose [matches] throws the error object at address 0, hydrated
    under the name [t] with the given weight. *)
Definition thrower (weight : option float) : Scoring.Checker :=
  Scoring.check
    {| Scoring.raw_matches := fun _ => throw 0;
       Scoring.raw_cast := fun value => Scoring.ret value;
       Scoring.raw_validate := fun value => Scoring.ret value |}
    (PStr "t") weight.

(** A heap whose only object is [new Error()], at address 0. *)
Definition heap_with_bare_error : Heap :=
  {| errors := {[ 0 := mkError "Error" None ]}; cells := ∅ |}.

(** A heap whose only object is [new Error("boom")], at address 0. *)
Definition heap_with_boom : Heap :=
  {| errors := {[ 0 := mkError "Error" (Some "boom") ]}; cells := ∅ |}.

(** The disjunction of a first checker with the ones after it, taken left to
    right through the [or] of the table: [c0.or(c1.or(c2 ...))]. *)
Fixpoint or_chain `{Scoring.Checks} (first : Scoring.Checker) (others : list Scoring.Checker) :
    Scoring.Checker :=
  match others with
  | [] => first
  | c :: cs => Scoring.or_ first [Scoring.WChecker (or_chain c cs)]
  end.

(** The same chain through the [or] of the earlier revision's table. *)
Fixpoint legacy_or_chain `{Legacy.Checks} (first : Legacy.Checker)
    (others : list Legacy.Checker) : Legacy.Checker :=
  match others with
  | [] => first
  | c :: cs => Legacy.or_ first [Legacy.WChecker (legacy_or_chain c cs)]
  end.

(** What the cast of its type makes of a wrapper object: the primitive it
    wraps, but [true] of every [Boolean] object. *)
Definition unwrapped (v : value) : option prim :=
  match v with
  | VObj (CString s) _ => Some (PStr s)
  | VObj (CNumber n) _ => Some (PNum n)
  | VObj (CBoolean _) _ => Some (PBool true)
  | _ => None
  end.

(** The primitive [p], or a wrapper object of it. *)
Definition wraps (p : prim) (x : value) : Prop :=
  x = VPrim p \/ exists l, x = VObj (wrapper p) l.

(** Some call of [matches] returned a truthy value for [v]. *)
Definition accepts (c : Scoring.Checker) (v : value) : Prop :=
  exists status keys h, says_yes (Scoring.matches c v status keys h) = true.

(** [cast] returns [r] for [v], in whatever status and heap it is called. *)
Definition casts_to (c : Scoring.Checker) (v r : value) : Prop :=
  forall status keys h, Scoring.res (Scoring.cast c v status keys h) = Normal r.

(** The cast of a checker is idempotent on the values it accepts: it returns
    some [once], and [once] again when handed [once]; [once] is the value
    itself unless that is a wrapper object cast to its primitive. *)
Definition cast_idempotent (c : Scoring.Checker) : Prop :=
  forall v, accepts c v ->
    exists once,
      casts_to c v once /\ casts_to c once once /\
      (once = v \/ exists q, unwrapped v = Some q /\ once = VPrim q).

(** What the casts of the stock checkers keep to, so that their conjunctions
    are idempotent: an accepted value is cast to itself or unwrapped; when it
    is unwrapped, so are the primitive and its other wrappers; when a wrapper
    is cast to itself, the primitive and its wrappers are cast to the
    primitive or a wrapper of it. *)
Definition tame (c : Scoring.Checker) : Prop :=
  (forall v, accepts c v ->
     casts_to c v v \/ exists q, unwrapped v = Some q /\ casts_to c v (VPrim q)) /\
  (forall v q, accepts c v -> unwrapped v = Some q -> casts_to c v (VPrim q) ->
     forall x, wraps q x -> casts_to c x (VPrim q)) /\
  (forall v q, accepts c v -> unwrapped v = Some q -> casts_to c v v ->
     forall x, wraps q x -> forall status keys h,
       exists x', wraps q x' /\ Scoring.res (Scoring.cast c x status keys h) = Normal x').

(** The same of a predicate and a coercion, as the static checkers pair
    them. *)
Definition tame_pair (p : value -> value) (f : value -> HeapOp value) : Prop :=
  (forall v, truthy (p v) = true ->
     (forall h, fst (f v h) = Normal v) \/
     exists q, unwrapped v = Some q /\ forall h, fst (f v h) = Normal (VPrim q)) /\
  (forall v q, truthy (p v) = true -> unwrapped v = Some q ->
     (forall h, fst (f v h) = Normal (VPrim q)) ->
     forall x, wraps q x -> forall h, fst (f x h) = Normal (VPrim q)) /\
  (forall v q, truthy (p v) = true -> unwrapped v = Some q ->
     (forall h, fst (f v h) = Normal v) ->
     forall x, wraps q x -> forall h, exists x', wraps q x' /\ fst (f x h) = Normal x').

Definition legacy_says_yes (r : Legacy.Result value) : bool :=
  match Legacy.res r with
  | Normal v => truthy v
  | Thrown _ => false
  end.

Definition legacy_accepts (c : Legacy.Checker) (v : value) : Prop :=
  exists status keys h, legacy_says_yes (Legacy.matches c v status keys h) = true.

Definition legacy_coerces_to (c : Legacy.Checker) (v r : value) : Prop :=
  forall status keys h, Legacy.res (Legacy.coerce c v status keys h) = Normal r.

Definition legacy_coerce_idempotent (c : Legacy.Checker) : Prop :=
  forall v, legacy_accepts c v ->
    exists once,
      legacy_coerces_to c v once /\ legacy_coerces_to c once once /\
      (once = v \/ exists q, unwrapped v = Some q /\ once = VPrim q).

(** The primitive static checkers of each revision. *)
Definition statics `{Host} : list Scoring.Checker :=
  [Scoring.as_error; Scoring.as_object; Scoring.as_array; Scoring.as_boolean;
   Scoring.as_string; Scoring.as_number; Scoring.as_date; Scoring.as_json].

Definition legacy_statics `{Host} : list Legacy.Checker :=
  [Legacy.as_error; Legacy.as_object; Legacy.as_array; Legacy.as_boolean;
   Legacy.as_string; Legacy.as_number; Legacy.as_date; Legacy.as_json].

(** The checkers the scoring revision builds from its statics: the statics,
    [as] itself, and their conjunctions. *)
Inductive Stock `{Host} `{Scoring.Checks} : Scoring.Checker -> Prop :=
| Stock_static (c : Scoring.Checker) : List.In c statics -> Stock c
| Stock_as : Stock Scoring.as_checker
| Stock_and (left : Scoring.Checker) (what : list Scoring.What) :
    Stock left -> Stock (Scoring.as_ what) -> Stock (Scoring.and_ left what).

(** A custom checker that accepts every value and casts with [f]. *)
Definition custom (name : string) (f : value -> value) : Scoring.Checker :=
  Scoring.check
    {| Scoring.raw_matches := fun _ => Scoring.ret true_;
       Scoring.raw_cast := fun value => Scoring.ret (f value);
       Scoring.raw_validate := fun value => Scoring.ret (f value) |}
    (PStr name) None.

(** The number [z] as a value. *)
Definition num (z : Z) : value := VPrim (PNum (NInt z)).

(** [function (value) { return value === from ? to : value; }] on numbers. *)
Definition replace_number (from to : Z) (v : value) : value :=
  if bool_decide (v = num from) then num to else v.

(** A checker whose [matches] notes in the cell [called] that it ran: a spy. *)
Definition spy : Scoring.Checker :=
  Scoring.check
    {| Scoring.raw_matches := fun _ s h =>
         Scoring.mkResult (Normal true_) s
           {| errors := errors h; cells := <["called" := true_]> (cells h) |};
       Scoring.raw_cast := fun value => Scoring.ret value;
       Scoring.raw_validate := fun value => Scoring.ret value |}
    (PStr "spy") None.

(** A status as a caller may hand it in, already inside [root]. *)
Definition status_at_root : Scoring.Status :=
  {| Scoring.path := [PStr "root"]; Scoring.defs := ∅; Scoring.quality := 0%float;
     Scoring.failures := [] |}.

Local Open Scope list_scope.

(** ** The ledger of a walk

    Checkers as the code composes them, kept as trees: a raw checker hydrated
    under a name and a weight, or the conjunction of two trees. *)
Inductive Tree : Type :=
| Hydrated (raw : Scoring.RawChecker) (name : prim) (weight : option float)
| Conj (lhs rhs : Tree).

Fixpoint checker_of `{Host} `{Scoring.Checks} (t : Tree) : Scoring.Checker :=
  match t with
  | Hydrated raw name weight => Scoring.check raw name weight
  | Conj lhs rhs => Scoring.and_ (checker_of lhs) [Scoring.WChecker (checker_of rhs)]
  end.

(** The raw methods at the leaves of a tree leave the quality alone. *)
Fixpoint quiet (t : Tree) : Prop :=
  match t with
  | Hydrated raw _ _ =>
      forall m v s h,
        Scoring.quality (Scoring.st (Scoring.raw_method raw m v s h)) = Scoring.quality s
  | Conj lhs rhs => quiet lhs /\ quiet rhs
  end.

(** One line of the ledger: an invocation recorded as a success or as a
    failure, with the weight handed to the recorder. *)
Definition entry : Type := bool * option float.

(** What one line does to the running total. *)
Definition settle (q : float) (e : entry) : float :=
  let w := default 1%float (snd e) in
  if fst e then (q + w)%float else (q - w)%float.

(** The line an invocation writes for itself, given how its raw method
    ended: a success when it returned (and was no [matches] with a falsy
    result), a failure when [matches] returned a falsy result or an error that
    carries a message was thrown, nothing when an error without a message was
    thrown. *)
Definition own_entry (m : Scoring.MethodName) (weight : option float)
    (r : Scoring.Result value) : list entry :=
  match Scoring.res r with
  | Normal result =>
      [(match m with Scoring.matches_ => truthy result | _ => true end, weight)]
  | Thrown err =>
      match message_of (Scoring.hp r) err with
      | Some _ => [(false, weight)]
      | None => []
      end
  end.

(** The ledger of one call, in call order: the lines of the invocations made
    under it, then its own. *)
Fixpoint walk `{Host} `{Scoring.Checks} (t : Tree) (m : Scoring.MethodName) (v : value)
    (status : option Scoring.Status) (keys : list prim) (h : Heap) : list entry :=
  match t with
  | Hydrated raw name weight =>
      own_entry m weight (Scoring.raw_method raw m v (entered name keys status) h)
  | Conj lhs rhs =>
      let s0 := entered PNull keys status in
      let a := checker_of lhs in
      let b := checker_of rhs in
      let below :=
        match m with
        | Scoring.matches_ =>
            let ra := Scoring.matches a v (Some s0) [] h in
            walk lhs Scoring.matches_ v (Some s0) [] h ++
            match Scoring.res ra with
            | Normal r1 =>
                if truthy r1
                then
                  let rc := Scoring.cast a v (Some (Scoring.st ra)) [] (Scoring.hp ra) in
                  walk lhs Scoring.cast_ v (Some (Scoring.st ra)) [] (Scoring.hp ra) ++
                  match Scoring.res rc with
                  | Normal c =>
                      walk rhs Scoring.matches_ c (Some (Scoring.st rc)) [Scoring.name a]
                        (Scoring.hp rc)
                  | Thrown _ => []
                  end
                else []
            | Thrown _ => []
            end
        | Scoring.cast_ =>
            let ra := Scoring.cast a v (Some s0) [] h in
            walk lhs Scoring.cast_ v (Some s0) [] h ++
            match Scoring.res ra with
            | Normal c =>
                walk rhs Scoring.cast_ c (Some (Scoring.st ra)) [Scoring.name a]
                  (Scoring.hp ra)
            | Thrown _ => []
            end
        | Scoring.validate_ =>
            let ra := Scoring.validate a v (Some s0) [] h in
            walk lhs Scoring.validate_ v (Some s0) [] h ++
            match Scoring.res ra with
            | Normal c =>
                walk rhs Scoring.validate_ c (Some (Scoring.st ra)) [Scoring.name a]
                  (Scoring.hp ra)
            | Thrown _ => []
            end
        end in
      below ++ own_entry m (Some 0%float) (Scoring.raw_method (Scoring.and_raw a b) m v s0 h)
  end.

(** ** A table whose [or] takes an array of descriptions *)

(** Modelled from the spec: the disjunction of the earlier revision, whose
    file [./check/or] is not among the repository's sources.  Its [matches]
    "succeeds if any branch matches, tried in argument order", and its
    [coerce] applies "the first branch that matches (or the first branch, if
    none match)"; it is hydrated without a name, as the conjunction is. *)
Definition legacy_either (c d : Legacy.Checker) : Legacy.Checker :=
  let first_match (m : Legacy.MethodName) : Legacy.RawMethod :=
    fun value s h =>
      let r := Legacy.matches c value (Some s) [] h in
      match Legacy.res r with
      | Normal yes =>
          if truthy yes
          then Legacy.method c m value (Some (Legacy.st r)) [] (Legacy.hp r)
          else
            let r' := Legacy.matches d value (Some (Legacy.st r)) [] (Legacy.hp r) in
            match Legacy.res r' with
            | Normal yes' =>
                Legacy.method (if truthy yes' then d else c) m value
                  (Some (Legacy.st r')) [] (Legacy.hp r')
            | Thrown _ => r'
            end
      | Thrown _ => r
      end in
  Legacy.check
    {| Legacy.raw_matches := fun value s h =>
         let r := Legacy.matches c value (Some s) [] h in
         match Legacy.res r with
         | Normal yes =>
             if truthy yes then r
             else Legacy.matches d value (Some (Legacy.st r)) [] (Legacy.hp r)
         | Thrown _ => r
         end;
       Legacy.raw_coerce := first_match Legacy.coerce_;
       Legacy.raw_validate := first_match Legacy.validate_ |}
    PNull.

(** What [as1] makes of a description when the other entries of the table
    answer with the universal checker. *)
Definition plain_as1 (what : Legacy.What) : Legacy.Checker :=
  @Legacy.as1 sample_host sample_legacy_checks what.

(** The disjunction of a first checker with the checkers of the descriptions
    after it, left to right. *)
Fixpoint any_of (first : Legacy.Checker) (others : list Legacy.What) : Legacy.Checker :=
  match others with
  | [] => first
  | what :: rest => legacy_either first (any_of (plain_as1 what) rest)
  end.

(** A table whose [or], handed an array or a checker, is the disjunction
    with the array's descriptions or with the checker. *)
Definition array_or_checks : Legacy.Checks :=
  {| Legacy.or_ := fun c whats =>
       match whats with
       | [Legacy.WArray (what :: rest)] => legacy_either c (any_of (plain_as1 what) rest)
       | [Legacy.WChecker d] => legacy_either c d
       | _ => c
       end;
     Legacy.with_ := fun _ _ => Legacy.as_checker;
     Legacy.regexp_ := fun _ _ => Legacy.as_checker;
     Legacy.eq_ := fun _ _ => Legacy.as_checker;
     Legacy.function_ := fun _ => Legacy.as_checker |}.

(** ** Vocabulary of the further properties *)

(** The failures list as recording leaves it: no entry starts with an entry
    recorded after it. *)
Definition settled (fs : list string) : Prop :=
  forall pre f post, fs = pre ++ f :: post ->
    forall g, List.In g pre -> startsWith g f = false.

(** A failures list reached from another by recordings alone. *)
Inductive grows (fs : list string) : list string -> Prop :=
| grows_refl : grows fs fs
| grows_record (p : string) (fs' : list string) :
    grows fs fs' -> grows fs (record_failure p fs').

(** A status reached from another by a call that kept to the discipline: the
    same path stack, the same definitions, failures only recorded. *)
Definition framed (s s' : Scoring.Status) : Prop :=
  Scoring.path s' = Scoring.path s /\
  Scoring.defs s' = Scoring.defs s /\
  grows (Scoring.failures s) (Scoring.failures s').

(** The raw methods at the leaves of a tree hand the status back as they got
    it (they do not use it, as those of the static checkers). *)
Fixpoint inert (t : Tree) : Prop :=
  match t with
  | Hydrated raw _ _ =>
      forall m v s h, Scoring.st (Scoring.raw_method raw m v s h) = s
  | Conj lhs rhs => inert lhs /\ inert rhs
  end.

(** A call that returned, and not with a falsy answer to [matches]. *)
Definition passes (m : Scoring.MethodName) (r : Scoring.Result value) : bool :=
  match Scoring.res r with
  | Normal result => match m with Scoring.matches_ => truthy result | _ => true end
  | Thrown _ => false
  end.

(** The name the outermost wrapper of a tree pushes: a conjunction has none. *)
Definition root_name (t : Tree) : prim :=
  match t with
  | Hydrated _ name _ => name
  | Conj _ _ => PNull
  end.

(** A call of the earlier revision that returned, and not with a falsy
    answer to [matches]. *)
Definition legacy_passes (m : Legacy.MethodName) (r : Legacy.Result value) : bool :=
  match Legacy.res r with
  | Normal result => match m with Legacy.matches_ => truthy result | _ => true end
  | Thrown _ => false
  end.

(** [JSON.stringify] of a string without characters to escape: the string
    between double quotes. *)
Definition quoted (s : string) : string :=
  String (Ascii.ascii_of_nat 34) (s +:+ String (Ascii.ascii_of_nat 34) EmptyString).

(** A host whose [JSON.parse] reads the text [0] as the number 0 and
    [{}] as an object, and takes no other text;
    its [JSON.stringify] quotes a string and prints a number. *)
Definition json_host : Host :=
  {| object_to_string := fun _ _ h => (Normal "[object Object]", h);
     object_to_number := fun _ _ h => (Normal NNaN, h);
     string_to_number := fun _ => NNaN;
     allocate := fun h => (0, h);
     array_of := fun _ h => (Normal (VObj CArray 0), h);
     new_Date := fun _ h => (Normal (VObj CDate 0), h);
     JSON_text := fun s =>
       if String.eqb s "0" then Some (ParsedPrim (PNum (NInt 0)))
       else if String.eqb s "{}" then Some (ParsedObject CObject)
       else None;
     JSON_stringify := fun v h =>
       match v with
       | VPrim (PStr s) => (Normal (VPrim (PStr (quoted s))), h)
       | VPrim (PNum n) => (Normal (VPrim (PStr (number_to_string n))), h)
       | _ => (Normal undefined, h)
       end |}.

(** A raw checker that accepts nothing and casts every value to itself. *)
Definition nothing_raw : Scoring.RawChecker :=
  {| Scoring.raw_matches := fun _ => Scoring.ret false_;
     Scoring.raw_cast := fun value => Scoring.ret value;
     Scoring.raw_validate := fun value => Scoring.ret value |}.

(** The conjunction of a checker that accepts everything, hydrated under the
    name [all], with one that accepts nothing, under the name [none]. *)
Definition all_and_none : Tree :=
  Conj (Hydrated Scoring.as_raw (PStr "all") None)
       (Hydrated nothing_raw (PStr "none") (Some 0.5%float)).

(** ** The path stack *)

Section PathStackFacts.

Lemma length_removelast_pred {A} (l : list A) : length (removelast l) = pred (length l).
Proof. rewrite removelast_firstn_len, length_take. lia. Qed.

Lemma length_pop_times (count : nat) (path : list prim) :
  length (pop_times count path) = length path - count.
Proof.
  unfold pop_times. induction count as [|n IH]; simpl.
  - lia.
  - rewrite length_removelast_pred, IH. lia.
Qed.

Lemma pop_times_app (path extra : list prim) :
  pop_times (length extra) (path ++ extra) = path.
Proof.
  unfold pop_times. induction extra as [|x extra IH] using rev_ind; simpl.
  - apply app_nil_r.
  - rewrite length_app. simpl length.
    replace (length extra + 1) with (S (length extra)) by lia.
    rewrite Nat.iter_succ_r, app_assoc, removelast_last. exact IH.
Qed.

Lemma prefix_empty (s : string) : String.prefix "" s = true.
Proof. destruct s; reflexivity. Qed.

Lemma append_cons (c : Ascii.ascii) (a b : string) :
  String c a +:+ b = String c (a +:+ b).
Proof. reflexivity. Qed.

Lemma prefix_append (a b : string) : String.prefix a (a +:+ b) = true.
Proof.
  induction a as [|c a IH].
  - apply prefix_empty.
  - rewrite append_cons. simpl.
    destruct (Ascii.ascii_dec c c) as [_|Hne]; [exact IH | contradiction].
Qed.

Lemma append_empty_r (s : string) : s +:+ "" = s.
Proof. induction s as [|c s IH]; [reflexivity|]. rewrite append_cons. congruence. Qed.

Lemma prefix_refl (s : string) : String.prefix s s = true.
Proof. rewrite <- (append_empty_r s) at 2. apply prefix_append. Qed.

Lemma prefix_cancel (a b c : string) :
  String.prefix (a +:+ b) (a +:+ c) = String.prefix b c.
Proof.
  induction a as [|x a IH]; [reflexivity|].
  rewrite !append_cons. simpl.
  destruct (Ascii.ascii_dec x x); [exact IH | contradiction].
Qed.

(** The joined path of a node is a string prefix of the joined path of
    every node below it. *)
Lemma join_prefix_deeper (path deeper : list prim) :
  String.prefix (join path) (join (path ++ deeper)) = true.
Proof.
  unfold join. induction path as [|x path IH].
  - apply prefix_empty.
  - destruct path as [|y path].
    + destruct deeper as [|d deeper].
      * apply prefix_refl.
      * apply prefix_append.
    + change (String.prefix
                (join_elem x +:+ "." +:+ String.concat "." (map join_elem (y :: path)))
                (join_elem x +:+ "." +:+
                   String.concat "." (map join_elem ((y :: path) ++ deeper))) = true).
      rewrite !prefix_cancel. exact IH.
Qed.

Lemma record_failure_skip (p : string) (fs : list string) :
  (exists f, List.In f fs /\ startsWith f p = true) -> record_failure p fs = fs.
Proof.
  intros Hex. unfold record_failure.
  replace (existsb _ fs) with true; [reflexivity|].
  symmetry. apply existsb_exists. exact Hex.
Qed.

Lemma record_failure_add (p : string) (fs : list string) :
  (forall f, List.In f fs -> startsWith f p = false) -> record_failure p fs = (fs ++ [p])%list.
Proof.
  intros Hall. unfold record_failure.
  destruct (existsb _ fs) eqn:E; [|reflexivity].
  apply existsb_exists in E as (f & Hin & Hf).
  rewrite (Hall f Hin) in Hf. discriminate.
Qed.

(** [path || 'any'] is never the empty string. *)
Lemma or_any_truthy (p : string) : truthy (VPrim (PStr (or_any p))) = true.
Proof.
  unfold or_any. simpl. destruct (String.eqb p "") eqn:E; [reflexivity|].
  now rewrite E.
Qed.

End PathStackFacts.

(** ** Recording a failure (C2) *)

(** C2, as the claim states it, fails: with the failure ["a"] already
    recorded and the current path [a.b], the recorded failure is a string
    prefix of the joined path, and the joined path is added all the same;
    with ["a.b"] recorded and the current path [a], no recorded failure is a
    prefix of the joined path, and it is not added.  Both recorders
    ([succeeded] with a false result, and the earlier [failed]) agree. *)
Lemma recorded_parent_does_not_suppress_child :
  let child := [PStr "a"; PStr "b"] in
  let parent := [PStr "a"] in
  let s1 := Scoring.mkStatus child ∅ 0%float ["a"] in
  let s2 := Scoring.mkStatus parent ∅ 0%float ["a.b"] in
  let l1 := Legacy.mkStatus child ∅ ["a"] in
  let l2 := Legacy.mkStatus parent ∅ ["a.b"] in
  (existsb (fun f => String.prefix f (join child)) ["a"] = true /\
   Scoring.failures (snd (Scoring.succeeded false None s1)) = ["a"; "a.b"] /\
   Legacy.failures (snd (Legacy.failed l1)) = ["a"; "a.b"]) /\
  (existsb (fun f => String.prefix f (join parent)) ["a.b"] = false /\
   Scoring.failures (snd (Scoring.succeeded false None s2)) = ["a.b"] /\
   Legacy.failures (snd (Legacy.failed l2)) = ["a.b"]).
Proof. repeat split; reflexivity. Qed.

(** C2, amended: the joined current path [p] is added to the failures unless
    some failure already recorded starts with [p], that is, unless [p] is a
    string prefix of a recorded failure.  So a failure recorded at a deeper
    path keeps the paths of its ancestors from being added afterwards.  This
    holds of [succeeded] with a false result and of the earlier [failed]. *)
Theorem failure_added_unless_recorded_one_starts_with_it
    (s : Scoring.Status) (w : option float) (l : Legacy.Status) :
  let p := join (Scoring.path s) in
  let q := join (Legacy.path l) in
  let after := Scoring.failures (snd (Scoring.succeeded false w s)) in
  let after' := Legacy.failures (snd (Legacy.failed l)) in
  ((exists f, List.In f (Scoring.failures s) /\ startsWith f p = true) ->
     after = Scoring.failures s) /\
  ((forall f, List.In f (Scoring.failures s) -> startsWith f p = false) ->
     after = (Scoring.failures s ++ [p])%list) /\
  (forall deeper, List.In (join (Scoring.path s ++ deeper)) (Scoring.failures s) ->
     after = Scoring.failures s) /\
  ((exists f, List.In f (Legacy.failures l) /\ startsWith f q = true) ->
     after' = Legacy.failures l) /\
  ((forall f, List.In f (Legacy.failures l) -> startsWith f q = false) ->
     after' = (Legacy.failures l ++ [q])%list) /\
  (forall deeper, List.In (join (Legacy.path l ++ deeper)) (Legacy.failures l) ->
     after' = Legacy.failures l).
Proof.
  cbv zeta. simpl. repeat split.
  - apply record_failure_skip.
  - apply record_failure_add.
  - intros deeper Hin. apply record_failure_skip.
    exists (join (Scoring.path s ++ deeper)). split; [exact Hin|].
    apply join_prefix_deeper.
  - apply record_failure_skip.
  - apply record_failure_add.
  - intros deeper Hin. apply record_failure_skip.
    exists (join (Legacy.path l ++ deeper)). split; [exact Hin|].
    apply join_prefix_deeper.
Qed.

(** The dotted path [a.b] recorded first, the later failure of its parent
    [a] is not added. *)
Example child_recorded_parent_skipped :
  Scoring.failures
    (snd (Scoring.succeeded false (Some 0.5%float)
            (Scoring.mkStatus [PStr "a"] ∅ 0%float ["a.b"]))) = ["a.b"].
Proof. reflexivity. Qed.

(** ** The hydrator of the scoring revision *)

Section ScoringHydrator.
Import Scoring.

Variables (raw : RawChecker) (name : prim) (weight : option float).
Variables (m : MethodName) (v : value) (status : option Status).
Variables (keys : list prim) (h : Heap).

Lemma method_check : method (check raw name weight) m = bindStatus raw name weight m.
Proof. destruct m; reflexivity. Qed.

Let count := length (pushed name keys).
Let r := raw_method raw m v (entered name keys status) h.

(** The three ways out of the wrapper. *)
Lemma bindStatus_returns (result : value) :
  res r = Normal result ->
  bindStatus raw name weight m v status keys h =
  mkResult (Normal result)
    (pop count
       (snd (succeeded (match m with matches_ => truthy result | _ => true end)
               weight (st r))))
    (hp r).
Proof.
  subst r count. unfold bindStatus, entered, push. cbn [snd].
  intros E. rewrite E. reflexivity.
Qed.

Lemma bindStatus_throws_message (err : loc) (message : string) :
  res r = Thrown err ->
  message_of (hp r) err = Some message ->
  bindStatus raw name weight m v status keys h =
  mkResult (Thrown err)
    (pop count (snd (succeeded false weight (st r))))
    (set_message err (message +:+ " at " +:+ or_any (join (path (st r)))) (hp r)).
Proof.
  subst r count. unfold bindStatus, entered, push. cbn [snd].
  intros E Em. rewrite E, Em. reflexivity.
Qed.

Lemma bindStatus_throws_bare (err : loc) :
  res r = Thrown err ->
  message_of (hp r) err = None ->
  bindStatus raw name weight m v status keys h =
  mkResult (Thrown err) (pop count (st r)) (hp r).
Proof.
  subst r count. unfold bindStatus, entered, push. cbn [snd].
  intros E Em. rewrite E, Em. rewrite E. reflexivity.
Qed.

Lemma path_succeeded (result : bool) (s : Status) :
  path (snd (succeeded result weight s)) = path s.
Proof. unfold succeeded. destruct result; reflexivity. Qed.

Lemma length_path_entered :
  length (path (entered name keys status)) =
  length (path (default (new_Status None) status)) + count.
Proof. unfold entered, push. simpl. apply length_app. Qed.

(** After the wrapper the path stack is what the raw method left, less the
    segments pushed on entry. *)
Lemma path_bindStatus :
  path (st (bindStatus raw name weight m v status keys h)) = pop_times count (path (st r)).
Proof.
  destruct (res r) as [result|err] eqn:E.
  - rewrite (bindStatus_returns result E). cbn [st]. unfold pop. cbn [path].
    now rewrite path_succeeded.
  - destruct (message_of (hp r) err) as [message|] eqn:Em.
    + rewrite (bindStatus_throws_message err message E Em). cbn [st]. unfold pop.
      cbn [path]. now rewrite path_succeeded.
    + now rewrite (bindStatus_throws_bare err E Em).
Qed.

(** If the raw method hands the path stack back as it got it, the caller
    finds its own path again. *)
Lemma path_restored :
  path (st r) = path (entered name keys status) ->
  path (st (bindStatus raw name weight m v status keys h)) =
  path (default (new_Status None) status).
Proof.
  intros E. rewrite path_bindStatus, E. unfold entered, push. cbn [snd path].
  apply pop_times_app.
Qed.

(** What the wrapper does to the quality score the raw method left. *)
Lemma quality_succeeded (result : bool) (s : Status) :
  quality (snd (succeeded result weight s)) =
  if result then (quality s + default 1 weight)%float
  else (quality s - default 1 weight)%float.
Proof. unfold succeeded. destruct result, weight; reflexivity. Qed.

Lemma quality_returns (result : value) :
  res r = Normal result ->
  quality (st (bindStatus raw name weight m v status keys h)) =
  if match m with matches_ => truthy result | _ => true end
  then (quality (st r) + default 1 weight)%float
  else (quality (st r) - default 1 weight)%float.
Proof.
  intros E. rewrite (bindStatus_returns result E). cbn [st]. unfold pop. cbn [quality].
  apply quality_succeeded.
Qed.

Lemma quality_throws_message (err : loc) (message : string) :
  res r = Thrown err ->
  message_of (hp r) err = Some message ->
  quality (st (bindStatus raw name weight m v status keys h)) =
  (quality (st r) - default 1 weight)%float.
Proof.
  intros E Em. rewrite (bindStatus_throws_message err message E Em).
  cbn [st]. unfold pop. cbn [quality]. apply (quality_succeeded false).
Qed.

Lemma quality_throws_bare (err : loc) :
  res r = Thrown err ->
  message_of (hp r) err = None ->
  quality (st (bindStatus raw name weight m v status keys h)) = quality (st r).
Proof. intros E Em. now rewrite (bindStatus_throws_bare err E Em). Qed.

(** The wrapper hands on what the raw method returned or threw. *)
Lemma res_bindStatus : res (bindStatus raw name weight m v status keys h) = res r.
Proof.
  destruct (res r) as [result|err] eqn:E.
  - now rewrite (bindStatus_returns result E).
  - destruct (message_of (hp r) err) as [message|] eqn:Em.
    + now rewrite (bindStatus_throws_message err message E Em).
    + now rewrite (bindStatus_throws_bare err E Em).
Qed.

End ScoringHydrator.

(** ** The hydrator of the earlier revision *)

Section LegacyHydrator.
Import Legacy.

Variables (raw : RawChecker) (name : prim).
Variables (m : MethodName) (v : value) (status : option Status).
Variables (keys : list prim) (h : Heap).

Lemma legacy_method_check : method (check raw name) m = bindStatus raw name m.
Proof. destruct m; reflexivity. Qed.

Let count := length (pushed name keys).
Let r := raw_method raw m v (legacy_entered name keys status) h.

Lemma legacy_bindStatus_passes (result : value) :
  res r = Normal result ->
  match m with matches_ => truthy result | _ => true end = true ->
  bindStatus raw name m v status keys h =
  mkResult (Normal result) (pop count (st r)) (hp r).
Proof.
  subst r count. unfold bindStatus, legacy_entered, push. cbn [snd].
  intros E Hok. rewrite E, Hok. rewrite E. reflexivity.
Qed.

Lemma legacy_bindStatus_fails (result : value) :
  res r = Normal result ->
  match m with matches_ => truthy result | _ => true end = false ->
  bindStatus raw name m v status keys h =
  mkResult (Normal false_) (pop count (snd (failed (st r)))) (hp r).
Proof.
  subst r count. unfold bindStatus, legacy_entered, push. cbn [snd].
  intros E Hko. rewrite E, Hko. unfold failed. cbn [snd st hp res].
  now rewrite or_any_truthy.
Qed.

Lemma legacy_bindStatus_throws_message (err : loc) (message : string) :
  res r = Thrown err ->
  message_of (hp r) err = Some message ->
  bindStatus raw name m v status keys h =
  mkResult (Thrown err)
    (pop count (snd (failed (st r))))
    (set_message err (message +:+ " at " +:+ or_any (join (path (st r)))) (hp r)).
Proof.
  subst r count. unfold bindStatus, legacy_entered, push. cbn [snd].
  intros E Em. rewrite E, Em. reflexivity.
Qed.

Lemma legacy_bindStatus_throws_bare (err : loc) :
  res r = Thrown err ->
  message_of (hp r) err = None ->
  bindStatus raw name m v status keys h =
  mkResult (Thrown err) (pop count (st r)) (hp r).
Proof.
  subst r count. unfold bindStatus, legacy_entered, push. cbn [snd].
  intros E Em. rewrite E, Em. rewrite E. reflexivity.
Qed.

Lemma legacy_length_path_entered :
  length (path (legacy_entered name keys status)) =
  length (path (default new_Status status)) + count.
Proof. unfold legacy_entered, push. simpl. apply length_app. Qed.

Lemma legacy_path_bindStatus :
  path (st (bindStatus raw name m v status keys h)) = pop_times count (path (st r)).
Proof.
  destruct (res r) as [result|err] eqn:E.
  - destruct (match m with matches_ => truthy result | _ => true end) eqn:Hok.
    + now rewrite (legacy_bindStatus_passes result E Hok).
    + now rewrite (legacy_bindStatus_fails result E Hok).
  - destruct (message_of (hp r) err) as [message|] eqn:Em.
    + now rewrite (legacy_bindStatus_throws_message err message E Em).
    + now rewrite (legacy_bindStatus_throws_bare err E Em).
Qed.

End LegacyHydrator.

(** ** Balance of the path stack (C3) *)

Section Balance.
Import Scoring.

Lemma neutral_ret {A} (a : A) : neutral (ret a).
Proof. intros s h. reflexivity. Qed.

Lemma neutral_lift {A} (op : HeapOp A) : neutral (lift op).
Proof. intros s h. unfold lift. destruct (op h). reflexivity. Qed.

Lemma neutral_bind {A B} (c : M A) (k : A -> M B) :
  neutral c -> (forall a, neutral (k a)) -> neutral (bind c k).
Proof.
  intros Hc Hk s h. unfold bind. specialize (Hc s h).
  destruct (res (c s h)) as [a|e]; simpl.
  - rewrite Hk. exact Hc.
  - exact Hc.
Qed.

Lemma neutral_call (f : Method) (v : value) (keys : list prim) :
  balanced f -> neutral (call f v keys).
Proof. intros Hf s h. apply (Hf v (Some s) keys h). Qed.

Lemma check_balanced (raw : RawChecker) (name : prim) (weight : option float) :
  (forall m, path_neutral (raw_method raw m)) ->
  forall m, balanced (method (check raw name weight) m).
Proof.
  intros Hraw m v status keys h.
  rewrite method_check, path_bindStatus, length_pop_times.
  rewrite (Hraw m v (entered name keys status) h), length_path_entered.
  lia.
Qed.

Lemma legacy_check_balanced (raw : Legacy.RawChecker) (name : prim) :
  (forall m, legacy_path_neutral (Legacy.raw_method raw m)) ->
  forall m, legacy_balanced (Legacy.method (Legacy.check raw name) m).
Proof.
  intros Hraw m v status keys h.
  rewrite legacy_method_check, legacy_path_bindStatus, length_pop_times.
  rewrite (Hraw m v (legacy_entered name keys status) h), legacy_length_path_entered.
  lia.
Qed.

Context `{Host} `{Checks}.

Lemma and_balanced (left : Checker) (what : list What) :
  (forall m, balanced (method left m)) ->
  (forall m, balanced (method (as_ what) m)) ->
  forall m, balanced (method (and_ left what) m).
Proof.
  intros Hl Hr. apply check_balanced. intros m v s h.
  assert (Hn : neutral (raw_method (and_raw left (as_ what)) m v)).
  { destruct m; cbn [raw_method and_raw raw_matches raw_cast raw_validate].
    - apply neutral_bind; [apply neutral_call, (Hl matches_)|].
      intros a. destruct (truthy a); [|apply neutral_ret].
      apply neutral_bind; [apply neutral_call, (Hl cast_)|].
      intros b. apply neutral_call, (Hr matches_).
    - apply neutral_bind; [apply neutral_call, (Hl cast_)|].
      intros b. apply neutral_call, (Hr cast_).
    - apply neutral_bind; [apply neutral_call, (Hl validate_)|].
      intros b. apply neutral_call, (Hr validate_). }
  apply Hn.
Qed.

(** The static checkers are among the composed ones. *)
Lemma static_composed (name : string) (p : value -> value) (f : value -> HeapOp value)
    (message : string) (weight : option float) :
  Composed (staticCheck name p f message weight).
Proof.
  apply Composed_check. intros m v s h.
  destruct m; cbn [raw_method static_raw raw_matches raw_cast raw_validate];
    try reflexivity; apply neutral_lift.
Qed.

Lemma composed_balanced (c : Checker) :
  Composed c -> forall m, balanced (method c m).
Proof.
  induction 1 as [raw name weight Hraw| |left what _ IHl _ IHr].
  - now apply check_balanced.
  - intros m.
    assert (E : method as_checker m = method (check as_raw PNull (Some 0%float)) m)
      by (destruct m; reflexivity).
    rewrite E. apply check_balanced.
    intros m' v s h. destruct m'; reflexivity.
  - now apply and_balanced.
Qed.

End Balance.

(** C3: for every checker composed by the code at hand (raw checkers
    hydrated by [as.check], [as] itself, conjunctions of such), every wrapped
    method, every value, status, keys and heap, the path stack is as long
    after the call as before it, whether the call returns or throws; the same
    holds of the checkers the earlier revision hydrates.  The raw methods at
    the leaves are taken to leave the length of the stack alone, as the ones
    of the library do.  Whatever the raw method does, the wrapper pops exactly
    the segments it pushed, on every way out. *)
Theorem path_stack_balance :
  (forall (host : Host) (checks : Scoring.Checks) (c : Scoring.Checker),
      Composed c -> forall m, balanced (Scoring.method c m)) /\
  (forall (raw : Legacy.RawChecker) (name : prim),
      (forall m, legacy_path_neutral (Legacy.raw_method raw m)) ->
      forall m, legacy_balanced (Legacy.method (Legacy.check raw name) m)) /\
  (forall raw name weight m v status keys h,
      Scoring.path (Scoring.st (Scoring.method (Scoring.check raw name weight) m v status keys h))
      = pop_times (length (pushed name keys))
          (Scoring.path (Scoring.st (Scoring.raw_method raw m v (entered name keys status) h)))) /\
  (forall raw name m v status keys h,
      Legacy.path (Legacy.st (Legacy.method (Legacy.check raw name) m v status keys h))
      = pop_times (length (pushed name keys))
          (Legacy.path
             (Legacy.st (Legacy.raw_method raw m v (legacy_entered name keys status) h)))).
Proof.
  split; [|split; [|split]].
  - intros host checks c. apply composed_balanced.
  - apply legacy_check_balanced.
  - intros. rewrite method_check. apply path_bindStatus.
  - intros. rewrite legacy_method_check. apply legacy_path_bindStatus.
Qed.

(** ** Errors thrown under the wrapper (C4) *)

Section Annotation.

Lemma message_of_Some (h : Heap) (err : loc) (message : string) :
  message_of h err = Some message ->
  exists e, errors h !! err = Some e /\ err_message e = Some message /\ message <> "".
Proof.
  unfold message_of. destruct (errors h !! err) as [e|]; [|discriminate].
  destruct (err_message e) as [m|] eqn:Hm; [|discriminate].
  destruct (String.eqb m "") eqn:E; [discriminate|].
  intros [= <-]. exists e. split; [reflexivity|]. split; [exact Hm|].
  now apply String.eqb_neq.
Qed.

(** [_.set(err, 'message', text)] changes the message of that one object
    and nothing else. *)
Lemma set_message_spec (h : Heap) (err : loc) (text : string) (e : ErrorObj) :
  errors h !! err = Some e ->
  errors (set_message err text h) !! err = Some (mkError (err_name e) (Some text)) /\
  (forall l, l <> err -> errors (set_message err text h) !! l = errors h !! l) /\
  cells (set_message err text h) = cells h.
Proof.
  intros He. unfold set_message. simpl. repeat split.
  - rewrite lookup_alter_eq, He. reflexivity.
  - intros l Hl. now rewrite lookup_alter_ne.
Qed.

(** [path || 'any'] is the path unless that is the empty string. *)
Lemma or_any_path (p : string) : p <> "" -> or_any p = p.
Proof. intros Hp. unfold or_any. apply String.eqb_neq in Hp. now rewrite Hp. Qed.

End Annotation.

(** C4: when the raw method throws the error object [err], the wrapped
    method throws the same object.  If the object carries a (non-empty)
    message, that message is now the old one followed by [ at ] and the
    joined current path, and by [ at any] when the joined path is the empty
    string, as it is for an empty path; its other fields, every other object
    and every cell are as the raw method left them.  If it carries none, the
    heap is exactly as the raw method left it.  Both revisions do so. *)
Theorem thrown_error_annotated_in_place :
  (forall (raw : Scoring.RawChecker) (name : prim) (weight : option float)
          (m : Scoring.MethodName) (v : value) (status : option Scoring.Status)
          (keys : list prim) (h : Heap) (err : loc),
      let r := Scoring.raw_method raw m v (entered name keys status) h in
      let out := Scoring.method (Scoring.check raw name weight) m v status keys h in
      let joined := join (Scoring.path (Scoring.st r)) in
      Scoring.res r = Thrown err ->
      Scoring.res out = Thrown err /\
      (forall e message,
          errors (Scoring.hp r) !! err = Some e ->
          err_message e = Some message -> message <> "" ->
          (joined <> "" ->
           errors (Scoring.hp out) !! err =
             Some (mkError (err_name e) (Some (message +:+ " at " +:+ joined)))) /\
          (joined = "" ->
           errors (Scoring.hp out) !! err =
             Some (mkError (err_name e) (Some (message +:+ " at any")))) /\
          (forall l, l <> err -> errors (Scoring.hp out) !! l = errors (Scoring.hp r) !! l) /\
          cells (Scoring.hp out) = cells (Scoring.hp r)) /\
      (Scoring.path (Scoring.st r) = [] -> joined = "") /\
      (message_of (Scoring.hp r) err = None -> Scoring.hp out = Scoring.hp r)) /\
  (forall (raw : Legacy.RawChecker) (name : prim)
          (m : Legacy.MethodName) (v : value) (status : option Legacy.Status)
          (keys : list prim) (h : Heap) (err : loc),
      let r := Legacy.raw_method raw m v (legacy_entered name keys status) h in
      let out := Legacy.method (Legacy.check raw name) m v status keys h in
      let joined := join (Legacy.path (Legacy.st r)) in
      Legacy.res r = Thrown err ->
      Legacy.res out = Thrown err /\
      (forall e message,
          errors (Legacy.hp r) !! err = Some e ->
          err_message e = Some message -> message <> "" ->
          (joined <> "" ->
           errors (Legacy.hp out) !! err =
             Some (mkError (err_name e) (Some (message +:+ " at " +:+ joined)))) /\
          (joined = "" ->
           errors (Legacy.hp out) !! err =
             Some (mkError (err_name e) (Some (message +:+ " at any")))) /\
          (forall l, l <> err -> errors (Legacy.hp out) !! l = errors (Legacy.hp r) !! l) /\
          cells (Legacy.hp out) = cells (Legacy.hp r)) /\
      (Legacy.path (Legacy.st r) = [] -> joined = "") /\
      (message_of (Legacy.hp r) err = None -> Legacy.hp out = Legacy.hp r)).
Proof.
  split.
  - intros raw name weight m v status keys h err r out joined E.
    subst out. rewrite method_check.
    destruct (message_of (Scoring.hp r) err) as [message|] eqn:Em.
    + rewrite (bindStatus_throws_message raw name weight m v status keys h err message E Em).
      cbn [Scoring.res Scoring.hp]. fold r. fold joined.
      split; [reflexivity|].
      split; [|split; [now unfold joined; intros ->|intros Hn; congruence]].
      intros e message' He Hm Hne.
      destruct (message_of_Some _ _ _ Em) as (e' & He' & Hm' & _).
      rewrite He in He'. injection He' as <-.
      rewrite Hm in Hm'. injection Hm' as <-.
      destruct (set_message_spec (Scoring.hp r) err
                  (message' +:+ " at " +:+ or_any joined) e He) as (Hset & Hothers & Hcells).
      split; [|split; [|split; [exact Hothers|exact Hcells]]].
      * intros Hj. rewrite Hset. now rewrite (or_any_path joined Hj).
      * intros Hj. rewrite Hset, Hj. reflexivity.
    + rewrite (bindStatus_throws_bare raw name weight m v status keys h err E Em).
      cbn [Scoring.res Scoring.hp]. fold r.
      split; [reflexivity|].
      split; [|split; [now unfold joined; intros ->|reflexivity]].
      intros e message He Hm Hne. exfalso.
      unfold message_of in Em. rewrite He, Hm in Em.
      apply String.eqb_neq in Hne. rewrite Hne in Em. discriminate.
  - intros raw name m v status keys h err r out joined E.
    subst out. rewrite legacy_method_check.
    destruct (message_of (Legacy.hp r) err) as [message|] eqn:Em.
    + rewrite (legacy_bindStatus_throws_message raw name m v status keys h err message E Em).
      cbn [Legacy.res Legacy.hp]. fold r. fold joined.
      split; [reflexivity|].
      split; [|split; [now unfold joined; intros ->|intros Hn; congruence]].
      intros e message' He Hm Hne.
      destruct (message_of_Some _ _ _ Em) as (e' & He' & Hm' & _).
      rewrite He in He'. injection He' as <-.
      rewrite Hm in Hm'. injection Hm' as <-.
      destruct (set_message_spec (Legacy.hp r) err
                  (message' +:+ " at " +:+ or_any joined) e He) as (Hset & Hothers & Hcells).
      split; [|split; [|split; [exact Hothers|exact Hcells]]].
      * intros Hj. rewrite Hset. now rewrite (or_any_path joined Hj).
      * intros Hj. rewrite Hset, Hj. reflexivity.
    + rewrite (legacy_bindStatus_throws_bare raw name m v status keys h err E Em).
      cbn [Legacy.res Legacy.hp]. fold r.
      split; [reflexivity|].
      split; [|split; [now unfold joined; intros ->|reflexivity]].
      intros e message He Hm Hne. exfalso.
      unfold message_of in Em. rewrite He, Hm in Em.
      apply String.eqb_neq in Hne. rewrite Hne in Em. discriminate.
Qed.

(** ** Conjunction (C1) *)

Section Conjunction.
Import Scoring.

Variables (a b : Checker) (v : value) (h : Heap).

(** What the raw [matches] of [a.and(b)] does in the status it is handed. *)
Lemma and_raw_matches (s : Status) :
  raw_matches (and_raw a b) v s h =
  let ra := matches a v (Some s) [] h in
  match res ra with
  | Normal r1 =>
      if truthy r1
      then
        let rc := cast a v (Some (st ra)) [] (hp ra) in
        match res rc with
        | Normal c => matches b c (Some (st rc)) [name a] (hp rc)
        | Thrown e => mkResult (Thrown e) (st rc) (hp rc)
        end
      else mkResult (Normal r1) (st ra) (hp ra)
  | Thrown e => mkResult (Thrown e) (st ra) (hp ra)
  end.
Proof.
  cbn [and_raw raw_matches]. unfold bind, call. cbv zeta.
  destruct (res (matches a v (Some s) [] h)) as [r1|e]; [|reflexivity].
  destruct (truthy r1); reflexivity.
Qed.

(** The raw [cast] and [validate]: [a]'s, then [b]'s on what [a]'s returned. *)
Lemma and_raw_cast (s : Status) :
  raw_cast (and_raw a b) v s h =
  let ra := cast a v (Some s) [] h in
  match res ra with
  | Normal c => cast b c (Some (st ra)) [name a] (hp ra)
  | Thrown e => mkResult (Thrown e) (st ra) (hp ra)
  end.
Proof. reflexivity. Qed.

Lemma and_raw_validate (s : Status) :
  raw_validate (and_raw a b) v s h =
  let ra := validate a v (Some s) [] h in
  match res ra with
  | Normal c => validate b c (Some (st ra)) [name a] (hp ra)
  | Thrown e => mkResult (Thrown e) (st ra) (hp ra)
  end.
Proof. reflexivity. Qed.

End Conjunction.

(** C1: [a.and(b).matches(v)] returns a truthy value exactly when
    [a.matches(v)] returns a truthy value, [a.cast(v)] returns, and
    [b.matches] returns a truthy value on what [a.cast(v)] returned (called
    with [a]'s name as key, in the status and heap the calls before it left).
    When [a.matches(v)] returns a falsy value, the conjunction returns that
    value from the state [a.matches] left, with its own failure recorded at
    weight 0 and its segments popped: nothing in the outcome depends on [b],
    so [b.matches] was not run. *)
Theorem and_matches_iff_both_and_short_circuits
    (host : Host) (checks : Scoring.Checks) (a b : Scoring.Checker) (v : value)
    (status : option Scoring.Status) (keys : list prim) (h : Heap) :
  let s0 := entered PNull keys status in
  let ra := Scoring.matches a v (Some s0) [] h in
  let rc := Scoring.cast a v (Some (Scoring.st ra)) [] (Scoring.hp ra) in
  let out := Scoring.matches (Scoring.and_ a [Scoring.WChecker b]) v status keys h in
  (says_yes out = true <->
     says_yes ra = true /\
     exists c, Scoring.res rc = Normal c /\
       says_yes (Scoring.matches b c (Some (Scoring.st rc)) [Scoring.name a] (Scoring.hp rc))
         = true) /\
  (forall r1, Scoring.res ra = Normal r1 -> truthy r1 = false ->
     out = Scoring.mkResult (Normal r1)
             (Scoring.pop (length (pushed PNull keys))
                (snd (Scoring.succeeded false (Some 0%float) (Scoring.st ra))))
             (Scoring.hp ra)) /\
  (says_yes ra = false ->
     forall b', Scoring.matches (Scoring.and_ a [Scoring.WChecker b']) v status keys h = out).
Proof.
  intros s0 ra rc out.
  assert (Hout : forall b0,
    Scoring.matches (Scoring.and_ a [Scoring.WChecker b0]) v status keys h =
    Scoring.bindStatus (Scoring.and_raw a b0) PNull (Some 0%float) Scoring.matches_
      v status keys h) by reflexivity.
  assert (Hraw : forall b0,
    Scoring.raw_method (Scoring.and_raw a b0) Scoring.matches_ v s0 h =
    match Scoring.res ra with
    | Normal r1 =>
        if truthy r1
        then
          match Scoring.res rc with
          | Normal c =>
              Scoring.matches b0 c (Some (Scoring.st rc)) [Scoring.name a] (Scoring.hp rc)
          | Thrown e => Scoring.mkResult (Thrown e) (Scoring.st rc) (Scoring.hp rc)
          end
        else Scoring.mkResult (Normal r1) (Scoring.st ra) (Scoring.hp ra)
    | Thrown e => Scoring.mkResult (Thrown e) (Scoring.st ra) (Scoring.hp ra)
    end) by (intros b0; apply and_raw_matches).
  split; [|split].
  - subst out. rewrite Hout. unfold says_yes. rewrite res_bindStatus.
    fold s0. rewrite Hraw.
    destruct (Scoring.res ra) as [r1|e] eqn:Ea.
    + destruct (truthy r1) eqn:Ht.
      * destruct (Scoring.res rc) as [c|e] eqn:Ec.
        -- split.
           ++ intros Hb. split; [reflexivity|]. exists c. split; [reflexivity|exact Hb].
           ++ intros (_ & c' & Hc & Hb). injection Hc as <-. exact Hb.
        -- simpl. split; [discriminate|].
           intros (_ & c' & Hc & _). discriminate.
      * simpl. rewrite Ht. split; [discriminate|]. intros (Hf & _). discriminate.
    + simpl. split; [discriminate|]. intros (Hf & _). discriminate.
  - intros r1 E Hko. subst out. rewrite Hout.
    assert (Er : Scoring.res
      (Scoring.raw_method (Scoring.and_raw a b) Scoring.matches_ v
         (entered PNull keys status) h) = Normal r1).
    { fold s0. rewrite Hraw, E, Hko. reflexivity. }
    rewrite (bindStatus_returns _ _ _ _ _ _ _ _ r1 Er).
    fold s0. rewrite Hraw, E, Hko. reflexivity.
  - intros Hno b'. subst out. rewrite !Hout.
    unfold Scoring.bindStatus. fold (entered PNull keys status).
    unfold Scoring.push. cbn [snd]. 
    change (Scoring.mkStatus
              (Scoring.path (default (Scoring.new_Status None) status) ++ pushed PNull keys)
              (Scoring.defs (default (Scoring.new_Status None) status))
              (Scoring.quality (default (Scoring.new_Status None) status))
              (Scoring.failures (default (Scoring.new_Status None) status))) with s0.
    rewrite !Hraw. unfold says_yes in Hno.
    destruct (Scoring.res ra) as [r1|e]; [|reflexivity].
    rewrite Hno. reflexivity.
Qed.

(** ** The quality score (C6, C7, C10) *)

Section FloatFacts.

(** Subtracting zero changes no binary64 number. *)
Lemma float_sub_zero (q : float) : (q - 0)%float = q.
Proof.
  apply Prim2SF_inj. rewrite sub_spec. unfold SF64sub, SFsub.
  destruct (Prim2SF q) as [[|]|[|]| |sign mant e]; reflexivity.
Qed.

(** Adding zero changes no binary64 number but the negative zero, which
    becomes the positive zero. *)
Lemma float_add_zero (q : float) :
  (q + 0)%float = q \/ (q = (-0)%float /\ (q + 0)%float = 0%float).
Proof.
  destruct (Prim2SF q) as [[|]|[|]| |sign mant e] eqn:E;
    [right | left ..]; try (apply Prim2SF_inj; rewrite add_spec, E; reflexivity).
  assert (q = (-0)%float) as -> by (apply Prim2SF_inj; rewrite E; reflexivity).
  split; reflexivity.
Qed.

End FloatFacts.

Section Ledger.
Import Scoring.

(** The wrapper settles the line it writes for itself. *)
Lemma quality_own_entry (raw : RawChecker) (name : prim) (weight : option float)
    (m : MethodName) (v : value) (status : option Status) (keys : list prim) (h : Heap) :
  let r := raw_method raw m v (entered name keys status) h in
  quality (st (bindStatus raw name weight m v status keys h)) =
  fold_left settle (own_entry m weight r) (quality (st r)).
Proof.
  intros r. unfold own_entry.
  destruct (res r) as [result|err] eqn:E.
  - rewrite (quality_returns _ _ _ _ _ _ _ _ result E). reflexivity.
  - destruct (message_of (hp r) err) as [message|] eqn:Em.
    + rewrite (quality_throws_message _ _ _ _ _ _ _ _ err message E Em). reflexivity.
    + rewrite (quality_throws_bare _ _ _ _ _ _ _ _ err E Em). reflexivity.
Qed.

Lemma quality_entered (name : prim) (keys : list prim) (status : option Status) :
  quality (entered name keys status) = quality (default (new_Status None) status).
Proof. reflexivity. Qed.

Context `{Host} `{Checks}.

(** The quality after a call is the quality before it with the ledger of the
    call settled line by line. *)
Lemma quality_is_ledger_settled (t : Tree) :
  quiet t ->
  forall m v status keys h,
    quality (st (method (checker_of t) m v status keys h)) =
    fold_left settle (walk t m v status keys h)
      (quality (default (new_Status None) status)).
Proof.
  induction t as [raw name weight|lhs IHl rhs IHr]; intros Hq m v status keys h.
  - cbn [checker_of walk]. rewrite method_check, quality_own_entry.
    cbv zeta. now rewrite Hq, quality_entered.
  - destruct Hq as [Hl Hr].
    assert (IHl' : forall m v s keys h,
      quality (st (method (checker_of lhs) m v (Some s) keys h)) =
      fold_left settle (walk lhs m v (Some s) keys h) (quality s))
      by (intros; apply (IHl Hl)).
    assert (IHr' : forall m v s keys h,
      quality (st (method (checker_of rhs) m v (Some s) keys h)) =
      fold_left settle (walk rhs m v (Some s) keys h) (quality s))
      by (intros; apply (IHr Hr)).
    clear IHl IHr.
    cbn [checker_of walk]. cbv zeta.
    unfold and_ at 1. cbn [as_ as1]. rewrite method_check, quality_own_entry. cbv zeta.
    rewrite fold_left_app. f_equal.
    set (s0 := entered PNull keys status).
    rewrite <- (quality_entered PNull keys status). fold s0.
    destruct m; cbn [raw_method].
    + rewrite and_raw_matches. cbv zeta.
      rewrite fold_left_app, <- (IHl' matches_). cbn [method].
      destruct (res (matches (checker_of lhs) v (Some s0) [] h)) as [r1|e]; [|reflexivity].
      destruct (truthy r1); [|reflexivity].
      rewrite fold_left_app, <- (IHl' cast_). cbn [method].
      destruct (res (cast (checker_of lhs) v _ [] _)) as [c|e]; [|reflexivity].
      now rewrite <- (IHr' matches_).
    + rewrite and_raw_cast. cbv zeta.
      rewrite fold_left_app, <- (IHl' cast_). cbn [method].
      destruct (res (cast (checker_of lhs) v (Some s0) [] h)) as [c|e]; [|reflexivity].
      now rewrite <- (IHr' cast_).
    + rewrite and_raw_validate. cbv zeta.
      rewrite fold_left_app, <- (IHl' validate_). cbn [method].
      destruct (res (validate (checker_of lhs) v (Some s0) [] h)) as [c|e]; [|reflexivity].
      now rewrite <- (IHr' validate_).
Qed.

End Ledger.

(** C6, as the claim states it, fails: a checker of weight 0.5 whose raw
    [matches] throws an error that carries no message.  The invocation fails
    (the error reaches the caller), and the quality is what it was: neither
    0.5 more nor 0.5 less. *)
Lemma bare_throw_leaves_quality_alone :
  let s := Scoring.new_Status None in
  let out := Scoring.matches (thrower (Some 0.5%float)) undefined (Some s) []
               heap_with_bare_error in
  Scoring.res out = Thrown 0 /\
  Scoring.quality (Scoring.st out) = Scoring.quality s /\
  Scoring.quality (Scoring.st out) <> (Scoring.quality s + 0.5)%float /\
  Scoring.quality (Scoring.st out) <> (Scoring.quality s - 0.5)%float.
Proof.
  cbv zeta. repeat split; try reflexivity.
  - intros E. apply (f_equal (fun x => PrimFloat.eqb x 0%float)) in E.
    vm_compute in E. discriminate.
  - intros E. apply (f_equal (fun x => PrimFloat.eqb x 0%float)) in E.
    vm_compute in E. discriminate.
Qed.

(** C6, amended: in the scoring revision every invocation of a wrapped
    method -- of any hydrated checker, so of each checker met along the walk
    and not only of the root -- changes the quality its raw method left by
    exactly [+weight] when the raw method returns and the call is no
    [matches] with a falsy result, by exactly [-weight] when [matches]
    returns a falsy result or the raw method throws an error that carries a
    message, and not at all when it throws an error without a message.  The
    weight counts as 1 when it is undefined.  So for every tree of hydrated
    checkers and conjunctions whose raw leaf methods leave the quality alone,
    the quality after a call is the quality before it with the signed weights
    of the invocations so recorded added in call order. *)
Theorem quality_moves_by_weight_of_each_recorded_outcome :
  (forall (raw : Scoring.RawChecker) (name : prim) (weight : option float)
          (m : Scoring.MethodName) (v : value) (status : option Scoring.Status)
          (keys : list prim) (h : Heap),
     let w := default 1%float weight in
     let r := Scoring.raw_method raw m v (entered name keys status) h in
     let out := Scoring.method (Scoring.check raw name weight) m v status keys h in
     let q := Scoring.quality (Scoring.st r) in
     (forall result, Scoring.res r = Normal result ->
        Scoring.quality (Scoring.st out) =
        if match m with Scoring.matches_ => truthy result | _ => true end
        then (q + w)%float else (q - w)%float) /\
     (forall err message, Scoring.res r = Thrown err ->
        message_of (Scoring.hp r) err = Some message ->
        Scoring.quality (Scoring.st out) = (q - w)%float) /\
     (forall err, Scoring.res r = Thrown err ->
        message_of (Scoring.hp r) err = None ->
        Scoring.quality (Scoring.st out) = q)) /\
  (forall (host : Host) (checks : Scoring.Checks) (t : Tree),
     quiet t ->
     forall m v status keys h,
       Scoring.quality (Scoring.st (Scoring.method (checker_of t) m v status keys h)) =
       fold_left settle (walk t m v status keys h)
         (Scoring.quality (default (Scoring.new_Status None) status))).
Proof.
  split.
  - intros raw name weight m v status keys h w r out q.
    subst out. rewrite method_check. repeat split.
    + intros result E. now apply quality_returns.
    + intros err message E Em.
      now apply (quality_throws_message _ _ _ _ _ _ _ _ err message).
    + intros err E Em. now apply (quality_throws_bare _ _ _ _ _ _ _ _ err).
  - intros host checks t. apply quality_is_ledger_settled.
Qed.

(** C7: [x.and(what...)] is [as.check] of the three composed methods with
    the name [null] and the weight 0.  After any of its methods the quality
    is the one its raw method -- the calls of [x] and of the right-hand
    checker -- left, as a number: the recorder adds or subtracts 0, which
    changes no binary64 value except that a negative zero left by the raw
    method is handed on as the positive zero. *)
Theorem and_wrapper_leaves_quality_to_its_operands
    (host : Host) (checks : Scoring.Checks) (x : Scoring.Checker)
    (what : list Scoring.What) (m : Scoring.MethodName) (v : value)
    (status : option Scoring.Status) (keys : list prim) (h : Heap) :
  let y := Scoring.as_ what in
  let r := Scoring.raw_method (Scoring.and_raw x y) m v (entered PNull keys status) h in
  let out := Scoring.method (Scoring.and_ x what) m v status keys h in
  let q := Scoring.quality (Scoring.st r) in
  Scoring.and_ x what = Scoring.check (Scoring.and_raw x y) PNull (Some 0%float) /\
  Scoring.name (Scoring.and_ x what) = PNull /\
  (Scoring.quality (Scoring.st out) = q \/
   (q = (-0)%float /\ Scoring.quality (Scoring.st out) = 0%float)).
Proof.
  intros y r out q. split; [reflexivity|]. split; [reflexivity|].
  subst out. unfold Scoring.and_. fold y. rewrite method_check.
  destruct (Scoring.res r) as [result|err] eqn:E.
  - rewrite (quality_returns _ _ _ _ _ _ _ _ result E). fold r q. cbn [default].
    destruct (match m with Scoring.matches_ => truthy result | _ => true end).
    + apply float_add_zero.
    + left. apply float_sub_zero.
  - destruct (message_of (Scoring.hp r) err) as [message|] eqn:Em.
    + rewrite (quality_throws_message _ _ _ _ _ _ _ _ err message E Em).
      left. apply float_sub_zero.
    + rewrite (quality_throws_bare _ _ _ _ _ _ _ _ err E Em). now left.
Qed.

(** C10, as the claim states it, fails on one kind of failing invocation: a
    checker hydrated without a weight whose raw [matches] throws an error
    that carries no message leaves the quality at 0, not at -1. *)
Lemma bare_throw_without_weight_costs_nothing :
  let s := Scoring.new_Status None in
  let out := Scoring.matches (thrower None) undefined (Some s) [] heap_with_bare_error in
  Scoring.res out = Thrown 0 /\
  Scoring.quality (Scoring.st out) = 0%float /\
  Scoring.quality (Scoring.st out) <> (Scoring.quality s - 1)%float.
Proof.
  cbv zeta. repeat split; try reflexivity.
  intros E. apply (f_equal (fun x => PrimFloat.eqb x 0%float)) in E.
  vm_compute in E. discriminate.
Qed.

(** C10, amended: [succeeded] called with an undefined weight moves the
    quality by exactly 1, up for a true result and down for a false one.  So
    a checker hydrated without a weight adds exactly 1 on each invocation
    that returns and is no [matches] with a falsy result, and takes exactly 1
    on each [matches] that returns a falsy result and on each invocation that
    throws an error carrying a message; an invocation that throws an error
    without a message is not recorded and leaves the quality alone. *)
Theorem undefined_weight_counts_as_one
    (raw : Scoring.RawChecker) (name : prim)
    (m : Scoring.MethodName) (v : value) (status : option Scoring.Status)
    (keys : list prim) (h : Heap) :
  let r := Scoring.raw_method raw m v (entered name keys status) h in
  let out := Scoring.method (Scoring.check raw name None) m v status keys h in
  let q := Scoring.quality (Scoring.st r) in
  (forall s, Scoring.quality (snd (Scoring.succeeded true None s)) =
               (Scoring.quality s + 1)%float /\
             Scoring.quality (snd (Scoring.succeeded false None s)) =
               (Scoring.quality s - 1)%float) /\
  (forall result, Scoring.res r = Normal result ->
     match m with Scoring.matches_ => truthy result | _ => true end = true ->
     Scoring.quality (Scoring.st out) = (q + 1)%float) /\
  (forall result, Scoring.res r = Normal result ->
     match m with Scoring.matches_ => truthy result | _ => true end = false ->
     Scoring.quality (Scoring.st out) = (q - 1)%float) /\
  (forall err message, Scoring.res r = Thrown err ->
     message_of (Scoring.hp r) err = Some message ->
     Scoring.quality (Scoring.st out) = (q - 1)%float) /\
  (forall err, Scoring.res r = Thrown err ->
     message_of (Scoring.hp r) err = None ->
     Scoring.quality (Scoring.st out) = q).
Proof.
  intros r out q. subst out. rewrite method_check. repeat split.
  - intros result E Hok.
    rewrite (quality_returns _ _ _ _ _ _ _ _ result E), Hok. reflexivity.
  - intros result E Hko.
    rewrite (quality_returns _ _ _ _ _ _ _ _ result E), Hko. reflexivity.
  - intros err message E Em.
    now rewrite (quality_throws_message _ _ _ _ _ _ _ _ err message E Em).
  - intros err E Em. now apply (quality_throws_bare _ _ _ _ _ _ _ _ err).
Qed.

(** ** The static checkers *)

Section Statics.

Context `{Host}.

(** What a static checker answers is what its predicate and its coercion
    answer. *)
Lemma static_matches (name : string) (p : value -> value) (f : value -> HeapOp value)
    (message : string) (weight : option float) v status keys h :
  says_yes (Scoring.matches (Scoring.staticCheck name p f message weight) v status keys h)
  = truthy (p v).
Proof.
  unfold says_yes.
  change (Scoring.matches (Scoring.staticCheck name p f message weight))
    with (Scoring.bindStatus
            {| Scoring.raw_matches := fun value => Scoring.ret (p value);
               Scoring.raw_cast := fun value => Scoring.lift (f value);
               Scoring.raw_validate := fun value => Scoring.lift (f value) |}
            (PStr name) weight Scoring.matches_).
  rewrite res_bindStatus. reflexivity.
Qed.

Lemma static_cast (name : string) (p : value -> value) (f : value -> HeapOp value)
    (message : string) (weight : option float) v status keys h :
  Scoring.res (Scoring.cast (Scoring.staticCheck name p f message weight) v status keys h)
  = fst (f v h).
Proof.
  change (Scoring.cast (Scoring.staticCheck name p f message weight))
    with (Scoring.bindStatus
            {| Scoring.raw_matches := fun value => Scoring.ret (p value);
               Scoring.raw_cast := fun value => Scoring.lift (f value);
               Scoring.raw_validate := fun value => Scoring.lift (f value) |}
            (PStr name) weight Scoring.cast_).
  rewrite res_bindStatus.
  cbn [Scoring.raw_method Scoring.static_raw Scoring.raw_cast]. unfold Scoring.lift.
  destruct (f v h). reflexivity.
Qed.

Lemma legacy_res_bindStatus raw name m v status keys h :
  m <> Legacy.matches_ ->
  Legacy.res (Legacy.bindStatus raw name m v status keys h) =
  Legacy.res (Legacy.raw_method raw m v (legacy_entered name keys status) h).
Proof.
  intros Hm.
  destruct (Legacy.res (Legacy.raw_method raw m v (legacy_entered name keys status) h))
    as [result|err] eqn:E.
  - rewrite (legacy_bindStatus_passes raw name m v status keys h result E);
      [reflexivity|]. destruct m; congruence.
  - destruct (message_of
                (Legacy.hp (Legacy.raw_method raw m v (legacy_entered name keys status) h))
                err) as [message|] eqn:Em.
    + now rewrite (legacy_bindStatus_throws_message raw name m v status keys h err message E Em).
    + now rewrite (legacy_bindStatus_throws_bare raw name m v status keys h err E Em).
Qed.

Lemma legacy_static_matches (name : string) (p : value -> value)
    (f : value -> HeapOp value) (message : string) v status keys h :
  legacy_says_yes (Legacy.matches (Legacy.staticCheck name p f message) v status keys h)
  = truthy (p v).
Proof.
  unfold legacy_says_yes.
  change (Legacy.matches (Legacy.staticCheck name p f message))
    with (Legacy.bindStatus
            {| Legacy.raw_matches := fun value => Legacy.ret (p value);
               Legacy.raw_coerce := fun value => Legacy.lift (f value);
               Legacy.raw_validate := fun value => Legacy.lift (f value) |}
            (PStr name) Legacy.matches_).
  destruct (truthy (p v)) eqn:Hp.
  - rewrite (legacy_bindStatus_passes _ _ _ _ _ _ _ (p v)); [exact Hp|reflexivity|exact Hp].
  - rewrite (legacy_bindStatus_fails _ _ _ _ _ _ _ (p v)); [reflexivity|reflexivity|exact Hp].
Qed.

Lemma legacy_static_coerce (name : string) (p : value -> value)
    (f : value -> HeapOp value) (message : string) v status keys h :
  Legacy.res (Legacy.coerce (Legacy.staticCheck name p f message) v status keys h)
  = fst (f v h).
Proof.
  change (Legacy.coerce (Legacy.staticCheck name p f message))
    with (Legacy.bindStatus
            {| Legacy.raw_matches := fun value => Legacy.ret (p value);
               Legacy.raw_coerce := fun value => Legacy.lift (f value);
               Legacy.raw_validate := fun value => Legacy.lift (f value) |}
            (PStr name) Legacy.coerce_).
  rewrite legacy_res_bindStatus by discriminate.
  cbn [Legacy.raw_method Legacy.static_raw Legacy.raw_coerce]. unfold Legacy.lift.
  destruct (f v h). reflexivity.
Qed.

End Statics.

(** ** The dispatcher (C5) *)

Section Dispatch.

Context `{Host} `{Scoring.Checks}.

Lemma as_or_chain (what : Scoring.What) (rest : list Scoring.What) :
  Scoring.as_ (what :: rest) = or_chain (Scoring.as1 what) (map Scoring.as1 rest).
Proof.
  revert what. induction rest as [|what' rest IH]; intros what.
  - reflexivity.
  - change (Scoring.as_ (what :: what' :: rest))
      with (Scoring.or_ (Scoring.as1 what) [Scoring.WChecker (Scoring.as_ (what' :: rest))]).
    rewrite IH. reflexivity.
Qed.

End Dispatch.

(** If the [or] of the earlier revision takes the one array it is handed for
    the descriptions to resolve, [as] with several arguments is the chain of
    each argument's checker there too. *)
Lemma legacy_as_or_chain `{Host} `{Legacy.Checks} :
  (forall c ws, ws <> [] ->
     Legacy.or_ c [Legacy.WArray ws] = Legacy.or_ c [Legacy.WChecker (Legacy.as_ ws)]) ->
  forall (what : Legacy.What) (rest : list Legacy.What),
    Legacy.as_ (what :: rest) = legacy_or_chain (Legacy.as1 what) (map Legacy.as1 rest).
Proof.
  intros Hor what rest. revert what.
  induction rest as [|what' rest IH]; intros what.
  - reflexivity.
  - change (Legacy.as_ (what :: what' :: rest))
      with (Legacy.or_ (Legacy.as1 what) [Legacy.WArray (what' :: rest)]).
    rewrite Hor by discriminate. rewrite IH. reflexivity.
Qed.


(** ** Casting what was accepted (C8, C9) *)

Section Idempotence.

(** Replacing one number by another is idempotent. *)
Lemma replace_number_idempotent (from to : Z) (v : value) :
  from <> to ->
  replace_number from to (replace_number from to v) = replace_number from to v.
Proof.
  intros Hne. unfold replace_number.
  destruct (bool_decide (v = num from)) eqn:E.
  - rewrite bool_decide_eq_false_2; [reflexivity|]. unfold num. congruence.
  - now rewrite E.
Qed.

Context `{Host}.

(** What is unwrapped is an object, not a primitive. *)
Lemma unwrapped_not_prim (v : value) (q p : prim) :
  unwrapped v = Some q -> v <> VPrim p.
Proof. intros Hu ->. discriminate. Qed.

(** The coercions of the statics, on what their predicates accept. *)
Lemma keeps_tame (p : value -> value) (f : value -> HeapOp value) :
  (forall v h, truthy (p v) = true -> fst (f v h) = Normal v) ->
  (forall v q, truthy (p v) = true -> unwrapped v = Some q ->
     forall x, wraps q x -> forall h, exists x', wraps q x' /\ fst (f x h) = Normal x') ->
  tame_pair p f.
Proof.
  intros Hkeep Hwraps. split; [|split].
  - intros v Hv. left. intros h. now apply Hkeep.
  - intros v q Hv Hu Hq. exfalso.
    specialize (Hq empty_heap). rewrite (Hkeep v empty_heap Hv) in Hq.
    injection Hq as Hq. now apply (unwrapped_not_prim v q q Hu).
  - intros v q Hv Hu _. exact (Hwraps v q Hv Hu).
Qed.

Lemma unwraps_tame (p : value -> value) (f : value -> HeapOp value) :
  (forall v h, truthy (p v) = true ->
     match unwrapped v with
     | Some q => fst (f v h) = Normal (VPrim q)
     | None => fst (f v h) = Normal v
     end) ->
  (forall v q, truthy (p v) = true -> unwrapped v = Some q ->
     forall x, wraps q x -> forall h, fst (f x h) = Normal (VPrim q)) ->
  tame_pair p f.
Proof.
  intros Hcast Hwraps. split; [|split].
  - intros v Hv. destruct (unwrapped v) as [q|] eqn:Hu.
    + right. exists q. split; [reflexivity|]. intros h.
      specialize (Hcast v h Hv). now rewrite Hu in Hcast.
    + left. intros h. specialize (Hcast v h Hv). now rewrite Hu in Hcast.
  - intros v q Hv Hu _. exact (Hwraps v q Hv Hu).
  - intros v q Hv Hu Hkeep. exfalso.
    specialize (Hkeep empty_heap). specialize (Hcast v empty_heap Hv).
    rewrite Hu, Hkeep in Hcast. injection Hcast as Hcast.
    now apply (unwrapped_not_prim v q q Hu).
Qed.

Lemma error_pair_tame : tame_pair (Scoring.predicate isUndefined) constant_undefined.
Proof.
  apply keeps_tame.
  - intros v h. destruct v as [[]|]; try discriminate. reflexivity.
  - intros v q Hv Hu. destruct v as [[]|]; discriminate.
Qed.

Lemma object_pair_tame : tame_pair (Scoring.predicate isObject) Object_.
Proof.
  apply keeps_tame.
  - intros v h. destruct v as [|c l]; try discriminate. reflexivity.
  - intros v q _ Hu x [->|[l ->]] h.
    + unfold Object_. destruct (allocate h) as [l h']. cbn [fst].
      exists (VObj (wrapper q) l). split; [right; now exists l|reflexivity].
    + exists (VObj (wrapper q) l). split; [right; now exists l|reflexivity].
Qed.

Lemma array_pair_tame : tame_pair (Scoring.predicate isArray) castArray.
Proof.
  apply keeps_tame.
  - intros v h Hv. unfold castArray. cbn in Hv. now rewrite Hv.
  - intros v q Hv Hu. destruct v as [|[] l]; discriminate.
Qed.

Lemma date_pair_tame : tame_pair (Scoring.predicate isDate) date_cast.
Proof.
  apply keeps_tame.
  - intros v h Hv. unfold date_cast. cbn in Hv. now rewrite Hv.
  - intros v q Hv Hu. destruct v as [|[] l]; discriminate.
Qed.

Lemma isJson_wraps (v : value) (s : string) (x : value) :
  unwrapped v = Some (PStr s) -> wraps (PStr s) x -> isJson x = isJson v.
Proof.
  intros Hu Hx. destruct v as [|[] l]; try discriminate.
  injection Hu as ->. destruct Hx as [->|[l' ->]]; reflexivity.
Qed.

Lemma json_pair_tame : tame_pair isJson json_cast.
Proof.
  apply keeps_tame.
  - intros v h Hv. unfold json_cast. now rewrite Hv.
  - intros v q Hv Hu x Hx h.
    assert (Hs : exists s, q = PStr s).
    { destruct v as [|[] l]; try discriminate.
      injection Hu as <-. now eexists. }
    destruct Hs as [s ->].
    exists x. split; [exact Hx|].
    unfold json_cast. now rewrite (isJson_wraps v s x Hu Hx), Hv.
Qed.

Lemma boolean_pair_tame : tame_pair (Scoring.predicate isBoolean) Boolean_.
Proof.
  apply unwraps_tame.
  - intros v h. destruct v as [[| |b| |]|[] l]; try discriminate; intros _.
    + now destruct b.
    + reflexivity.
  - intros v q Hv Hu x Hx h.
    destruct v as [|[] l]; try discriminate. injection Hu as <-.
    destruct Hx as [->|[l' ->]]; reflexivity.
Qed.

Lemma String_wraps (s : string) (x : value) (h : Heap) :
  wraps (PStr s) x -> String_ x h = (Normal (VPrim (PStr s)), h).
Proof. intros [->|[l ->]]; reflexivity. Qed.

Lemma String_pair_tame : tame_pair (Scoring.predicate isString) String_.
Proof.
  apply unwraps_tame.
  - intros v h. destruct v as [[| | | |s]|[] l]; try discriminate; reflexivity.
  - intros v q Hv Hu x Hx h.
    destruct v as [|[] l]; try discriminate. injection Hu as <-.
    now rewrite (String_wraps _ x h Hx).
Qed.

Lemma string_pair_tame : tame_pair (Scoring.predicate isString) Scoring.string_cast.
Proof.
  apply unwraps_tame.
  - intros v h. destruct v as [[| | | |s]|[] l]; try discriminate; reflexivity.
  - intros v q Hv Hu x Hx h.
    destruct v as [|[] l]; try discriminate. injection Hu as <-.
    unfold Scoring.string_cast.
    replace (isUndefined x || isNull x) with false
      by (destruct Hx as [->|[l' ->]]; reflexivity).
    now rewrite (String_wraps _ x h Hx).
Qed.

Lemma number_pair_tame : tame_pair (Scoring.predicate isNumber) Number_.
Proof.
  apply unwraps_tame.
  - intros v h. destruct v as [[| | |n|]|[] l]; try discriminate; reflexivity.
  - intros v q Hv Hu x Hx h.
    destruct v as [|[] l]; try discriminate. injection Hu as <-.
    destruct Hx as [->|[l' ->]]; reflexivity.
Qed.

(** A static checker is as tame as its predicate and its coercion. *)
Lemma static_tame (name : string) (p : value -> value) (f : value -> HeapOp value)
    (message : string) (weight : option float) :
  tame_pair p f -> tame (Scoring.staticCheck name p f message weight).
Proof.
  intros (Ha & Hl & Hm).
  assert (Hacc : forall v, accepts (Scoring.staticCheck name p f message weight) v ->
                           truthy (p v) = true).
  { intros v (status & keys & h & Hyes). now rewrite static_matches in Hyes. }
  assert (Hto : forall v r, casts_to (Scoring.staticCheck name p f message weight) v r <->
                            forall h, fst (f v h) = Normal r).
  { intros v r. split.
    - intros Hc h. specialize (Hc None [] h). now rewrite static_cast in Hc.
    - intros Hf status keys h. rewrite static_cast. apply Hf. }
  split; [|split].
  - intros v Hv. destruct (Ha v (Hacc v Hv)) as [Hk|(q & Hu & Hq)].
    + left. now apply Hto.
    + right. exists q. split; [exact Hu|]. now apply Hto.
  - intros v q Hv Hu Hq x Hx. apply Hto.
    apply (Hl v q (Hacc v Hv) Hu); [now apply Hto|exact Hx].
  - intros v q Hv Hu Hk x Hx status keys h.
    assert (Hk' : forall h, fst (f v h) = Normal v) by now apply Hto.
    destruct (Hm v q (Hacc v Hv) Hu Hk' x Hx h) as (x' & Hx' & Hf).
    exists x'. split; [exact Hx'|]. now rewrite static_cast.
Qed.

Lemma statics_tame (c : Scoring.Checker) : List.In c statics -> tame c.
Proof.
  unfold statics. simpl.
  intros [<-|[<-|[<-|[<-|[<-|[<-|[<-|[<-|[]]]]]]]]]; apply static_tame.
  - apply error_pair_tame.
  - apply object_pair_tame.
  - apply array_pair_tame.
  - apply boolean_pair_tame.
  - apply string_pair_tame.
  - apply number_pair_tame.
  - apply date_pair_tame.
  - apply json_pair_tame.
Qed.

(** The statics of the earlier revision coerce idempotently. *)
Lemma legacy_static_idempotent (name : string) (p : value -> value)
    (f : value -> HeapOp value) (message : string) :
  tame_pair p f -> legacy_coerce_idempotent (Legacy.staticCheck name p f message).
Proof.
  intros (Ha & Hl & _) v (status & keys & h & Hyes).
  rewrite legacy_static_matches in Hyes.
  destruct (Ha v Hyes) as [Hk|(q & Hu & Hq)].
  - exists v. repeat split; try (intros s k h'; rewrite legacy_static_coerce; apply Hk).
    now left.
  - exists (VPrim q). split; [|split].
    + intros s k h'. rewrite legacy_static_coerce. apply Hq.
    + intros s k h'. rewrite legacy_static_coerce.
      apply (Hl v q Hyes Hu Hq). now left.
    + right. now exists q.
Qed.

Lemma legacy_statics_idempotent (c : Legacy.Checker) :
  List.In c legacy_statics -> legacy_coerce_idempotent c.
Proof.
  unfold legacy_statics. simpl.
  intros [<-|[<-|[<-|[<-|[<-|[<-|[<-|[<-|[]]]]]]]]]; apply legacy_static_idempotent.
  - apply error_pair_tame.
  - apply object_pair_tame.
  - apply array_pair_tame.
  - apply boolean_pair_tame.
  - apply String_pair_tame.
  - apply number_pair_tame.
  - apply date_pair_tame.
  - apply json_pair_tame.
Qed.

End Idempotence.

Section Composition.
Import Scoring.
Context `{Host} `{Checks}.

Lemma casts_to_unique (c : Checker) (v a b : value) :
  casts_to c v a -> casts_to c v b -> a = b.
Proof.
  intros Ha Hb. specialize (Ha None [] empty_heap). specialize (Hb None [] empty_heap).
  congruence.
Qed.

Lemma as_tame : tame as_checker.
Proof.
  assert (Hid : forall v, casts_to as_checker v v) by (intros v status keys h; reflexivity).
  split; [|split].
  - intros v _. left. apply Hid.
  - intros v q _ Hu Hq. exfalso.
    apply (unwrapped_not_prim v q q Hu). apply (casts_to_unique as_checker v); auto.
  - intros v q _ _ _ x Hx status keys h. exists x. split; [exact Hx|reflexivity].
Qed.

(** A conjunction says yes only if its left checker said yes, the left
    cast returned, and the right checker said yes to what it returned. *)
Lemma and_says_yes (x y : Checker) (v : value) (status : option Status)
    (keys : list prim) (h : Heap) :
  says_yes (bindStatus (and_raw x y) PNull (Some 0%float) matches_ v status keys h) = true ->
  let ra := matches x v (Some (entered PNull keys status)) [] h in
  let rc := cast x v (Some (st ra)) [] (hp ra) in
  says_yes ra = true /\
  exists c, res rc = Normal c /\
            says_yes (matches y c (Some (st rc)) [name x] (hp rc)) = true.
Proof.
  unfold says_yes. rewrite res_bindStatus.
  cbn [raw_method]. rewrite and_raw_matches. cbv zeta.
  destruct (res (matches x v (Some (entered PNull keys status)) [] h)) as [r1|e] eqn:Ea;
    [|discriminate].
  destruct (truthy r1) eqn:Ht; [|cbn [res]; congruence].
  destruct (res (cast x v _ [] _)) as [c|e] eqn:Ec; [|discriminate].
  intros Hy. split; [reflexivity|]. exists c. split; [reflexivity|exact Hy].
Qed.

(** What a conjunction accepts, its left checker accepts, and its right
    checker accepts what the left one casts it to. *)
Lemma and_accepts (x : Checker) (what : list What) (v : value) :
  accepts (and_ x what) v ->
  accepts x v /\ forall r, casts_to x v r -> accepts (as_ what) r.
Proof.
  intros (status & keys & h & Hyes).
  change (matches (and_ x what))
    with (bindStatus (and_raw x (as_ what)) PNull (Some 0%float) matches_) in Hyes.
  apply and_says_yes in Hyes. cbv zeta in Hyes.
  destruct Hyes as (Ha & c & Hc & Hb). split.
  - now exists (Some (entered PNull keys status)), [], h.
  - intros r Hr. rewrite Hr in Hc. injection Hc as <-.
    eexists _, _, _. exact Hb.
Qed.

(** The cast of a conjunction is the right cast of what the left one
    returned. *)
Lemma and_cast_res (x : Checker) (what : list What) (v : value)
    (status : option Status) (keys : list prim) (h : Heap) :
  res (cast (and_ x what) v status keys h) =
  let ra := cast x v (Some (entered PNull keys status)) [] h in
  match res ra with
  | Normal c => res (cast (as_ what) c (Some (st ra)) [name x] (hp ra))
  | Thrown e => Thrown e
  end.
Proof.
  change (cast (and_ x what))
    with (bindStatus (and_raw x (as_ what)) PNull (Some 0%float) cast_).
  rewrite res_bindStatus. cbn [raw_method]. rewrite and_raw_cast. cbv zeta.
  now destruct (res (cast x v (Some (entered PNull keys status)) [] h)).
Qed.

Lemma and_casts_to (x : Checker) (what : list What) (v r r' : value) :
  casts_to x v r -> casts_to (as_ what) r r' -> casts_to (and_ x what) v r'.
Proof.
  intros Hx Hy status keys h. rewrite and_cast_res. cbv zeta. rewrite Hx. apply Hy.
Qed.

Lemma and_tame (x : Checker) (what : list What) :
  tame x -> tame (as_ what) -> tame (and_ x what).
Proof.
  intros (Ax & Lx & Mx) (Ay & Ly & My).
  (* how the two casts meet on an accepted value *)
  assert (Hcases : forall v, accepts (and_ x what) v ->
    (casts_to x v v /\ accepts (as_ what) v /\ casts_to (as_ what) v v) \/
    (exists q, unwrapped v = Some q /\ casts_to x v v /\ accepts (as_ what) v /\
               casts_to (as_ what) v (VPrim q)) \/
    (exists q, unwrapped v = Some q /\ casts_to x v (VPrim q) /\
               casts_to (as_ what) (VPrim q) (VPrim q))).
  { intros v Hv. destruct (and_accepts x what v Hv) as (Hxv & Hyv).
    destruct (Ax v Hxv) as [Hk|(q & Hu & Hq)].
    - specialize (Hyv v Hk). destruct (Ay v Hyv) as [Hk'|(q & Hu & Hq)].
      + left. auto.
      + right. left. exists q. auto.
    - specialize (Hyv (VPrim q) Hq). right. right. exists q.
      split; [exact Hu|]. split; [exact Hq|].
      destruct (Ay (VPrim q) Hyv) as [Hk'|(q' & Hu' & _)]; [exact Hk'|discriminate]. }
  split; [|split].
  - intros v Hv. destruct (Hcases v Hv) as [(Hx & _ & Hy)|[(q & Hu & Hx & _ & Hy)|(q & Hu & Hx & Hy)]].
    + left. now apply (and_casts_to x what v v v).
    + right. exists q. split; [exact Hu|]. now apply (and_casts_to x what v v).
    + right. exists q. split; [exact Hu|]. now apply (and_casts_to x what v (VPrim q)).
  - intros v q Hv Hu Hq x0 Hx0.
    destruct (Hcases v Hv) as [(Hx & _ & Hy)|[(q' & Hu' & Hx & Hyv & Hy)|(q' & Hu' & Hx & Hy)]].
    + exfalso. apply (unwrapped_not_prim v q q Hu).
      apply (casts_to_unique (and_ x what) v); [|exact Hq].
      now apply (and_casts_to x what v v v).
    + assert (q' = q) by congruence. subst q'.
      destruct (and_accepts x what v Hv) as (Hxv & _).
      intros status keys h. rewrite and_cast_res. cbv zeta.
      destruct (Mx v q Hxv Hu Hx x0 Hx0 (Some (entered PNull keys status)) [] h)
        as (x' & Hx' & ->).
      apply (Ly v q Hyv Hu Hy x' Hx').
    + assert (q' = q) by congruence. subst q'.
      destruct (and_accepts x what v Hv) as (Hxv & _).
      apply (and_casts_to x what x0 (VPrim q)); [|exact Hy].
      apply (Lx v q Hxv Hu Hx x0 Hx0).
  - intros v q Hv Hu Hk x0 Hx0 status keys h.
    destruct (and_accepts x what v Hv) as (Hxv & _).
    destruct (Hcases v Hv) as [(Hx & Hyv & Hy)|[(q' & Hu' & Hx & _ & Hy)|(q' & Hu' & Hx & Hy)]].
    + rewrite and_cast_res. cbv zeta.
      destruct (Mx v q Hxv Hu Hx x0 Hx0 (Some (entered PNull keys status)) [] h)
        as (x' & Hx' & Hr).
      rewrite Hr. apply (My v q Hyv Hu Hy x' Hx').
    + exfalso. apply (unwrapped_not_prim v q' q' Hu').
      apply (casts_to_unique (and_ x what) v); [exact Hk|].
      now apply (and_casts_to x what v v).
    + exfalso. apply (unwrapped_not_prim v q' q' Hu').
      apply (casts_to_unique (and_ x what) v); [exact Hk|].
      now apply (and_casts_to x what v (VPrim q')).
Qed.

Lemma stock_tame (c : Checker) : Stock c -> tame c.
Proof.
  induction 1 as [c Hin| |x what _ IHx _ IHy].
  - now apply statics_tame.
  - apply as_tame.
  - now apply and_tame.
Qed.

(** A tame checker casts idempotently what it accepts. *)
Lemma tame_cast_idempotent (c : Checker) : tame c -> cast_idempotent c.
Proof.
  intros (Ha & Hl & _) v Hv.
  destruct (Ha v Hv) as [Hk|(q & Hu & Hq)].
  - exists v. split; [exact Hk|]. split; [exact Hk|now left].
  - exists (VPrim q). split; [exact Hq|]. split.
    + apply (Hl v q Hv Hu Hq). now left.
    + right. now exists q.
Qed.

End Composition.

(** A value other than [NaN] is strictly equal to itself. *)
Lemma strict_equals_refl (v : value) :
  v <> VPrim (PNum NNaN) -> strict_equals v v = true.
Proof.
  intros Hnan. unfold strict_equals.
  destruct v as [[| | |[|]|]|]; try (apply bool_decide_eq_true_2; reflexivity).
  contradiction.
Qed.

(** C8, as the claim states it, fails: [a] casts 2 to 0 and [b] casts 1 to 2,
    every other value to itself; both casts are idempotent and both checkers
    accept every value.  Their conjunction accepts 1 and casts it to 2, and
    casts that 2 to 0. *)
Lemma and_of_idempotent_casts_is_not_idempotent :
  let a := custom "a" (replace_number 2 0) in
  let b := custom "b" (replace_number 1 2) in
  let c := @Scoring.and_ sample_host sample_checks a [Scoring.WChecker b] in
  let once := Scoring.cast c (num 1) None [] empty_heap in
  let twice := Scoring.cast c (num 2) None [] (Scoring.hp once) in
  (forall v, replace_number 2 0 (replace_number 2 0 v) = replace_number 2 0 v) /\
  (forall v, replace_number 1 2 (replace_number 1 2 v) = replace_number 1 2 v) /\
  says_yes (Scoring.matches c (num 1) None [] empty_heap) = true /\
  Scoring.res once = Normal (num 2) /\
  Scoring.res twice = Normal (num 0) /\
  strict_equals (num 0) (num 2) = false.
Proof.
  cbv zeta. split; [|split].
  - intros v. now apply replace_number_idempotent.
  - intros v. now apply replace_number_idempotent.
  - repeat split; reflexivity.
Qed.

(** C8, amended: every checker the library builds from its statics -- each
    primitive static checker (error, object, array, boolean, string, number,
    date, json), [as] itself, and any conjunction of such checkers -- casts
    idempotently what it accepts.  An accepted value is cast to some [once],
    the same in every status and heap, and [once] is cast to [once] again;
    the two results are strictly equal unless they are [NaN].  [once] is the
    value itself, or, when the value is a [String], [Number] or [Boolean]
    object, possibly the primitive its cast makes of it (the wrapped string
    or number, [true] for every [Boolean] object).  The same holds of the
    statics of the earlier revision and their [coerce].  (A conjunction of
    checkers that merely have idempotent casts need not have one.) *)
Theorem stock_checkers_cast_accepted_values_idempotently :
  (forall (host : Host) (checks : Scoring.Checks) (c : Scoring.Checker),
     Stock c ->
     forall v status keys h,
       says_yes (Scoring.matches c v status keys h) = true ->
       exists once,
         (forall s1 k1 h1, Scoring.res (Scoring.cast c v s1 k1 h1) = Normal once) /\
         (forall s2 k2 h2, Scoring.res (Scoring.cast c once s2 k2 h2) = Normal once) /\
         (once <> VPrim (PNum NNaN) -> strict_equals once once = true) /\
         (once = v \/ exists q, unwrapped v = Some q /\ once = VPrim q)) /\
  (forall (host : Host) (c : Legacy.Checker),
     List.In c legacy_statics ->
     forall v status keys h,
       legacy_says_yes (Legacy.matches c v status keys h) = true ->
       exists once,
         (forall s1 k1 h1, Legacy.res (Legacy.coerce c v s1 k1 h1) = Normal once) /\
         (forall s2 k2 h2, Legacy.res (Legacy.coerce c once s2 k2 h2) = Normal once) /\
         (once <> VPrim (PNum NNaN) -> strict_equals once once = true) /\
         (once = v \/ exists q, unwrapped v = Some q /\ once = VPrim q)).
Proof.
  split.
  - intros host checks c Hc v status keys h Hyes.
    destruct (tame_cast_idempotent c (stock_tame c Hc) v) as (once & H1 & H2 & H3).
    { now exists status, keys, h. }
    exists once. split; [exact H1|]. split; [exact H2|].
    split; [apply strict_equals_refl|exact H3].
  - intros host c Hc v status keys h Hyes.
    destruct (legacy_statics_idempotent c Hc v) as (once & H1 & H2 & H3).
    { now exists status, keys, h. }
    exists once. split; [exact H1|]. split; [exact H2|].
    split; [apply strict_equals_refl|exact H3].
Qed.

(** C9: in the scoring revision the string checker casts 123 to ["123"] and
    [null] (and [undefined]) to the empty string; in the earlier revision,
    whose coercion is the bare [String], the string checker coerces 123 to
    ["123"] but [null] to ["null"]. *)
Theorem string_checker_on_123_and_null
    (host : Host) (status : option Scoring.Status) (status' : option Legacy.Status)
    (keys : list prim) (h : Heap) :
  let n123 := num 123 in
  (Scoring.res (Scoring.cast Scoring.as_string n123 status keys h) = Normal (VPrim (PStr "123")) /\
   Scoring.res (Scoring.cast Scoring.as_string null status keys h) = Normal (VPrim (PStr "")) /\
   Scoring.res (Scoring.cast Scoring.as_string undefined status keys h) = Normal (VPrim (PStr ""))) /\
  (Legacy.res (Legacy.coerce Legacy.as_string n123 status' keys h) = Normal (VPrim (PStr "123")) /\
   Legacy.res (Legacy.coerce Legacy.as_string null status' keys h) = Normal (VPrim (PStr "null"))).
Proof.
  cbv zeta. unfold Scoring.as_string, Legacy.as_string.
  rewrite !static_cast, !legacy_static_coerce. repeat split; reflexivity.
Qed.


(** * Further properties of the code *)

(** ** [push] and [pop] *)

Section PushPop.

Lemma pop_times_take (count : nat) (path : list prim) :
  pop_times count path = take (length path - count) path.
Proof.
  unfold pop_times. induction count as [|n IH]; simpl.
  - rewrite Nat.sub_0_r. symmetry. apply firstn_all.
  - rewrite IH, removelast_firstn_len, length_take, take_take. f_equal. lia.
Qed.

Lemma pushed_truthy (name : prim) (keys : list prim) :
  Forall (fun p => truthy_prim p = true) (pushed name keys).
Proof.
  unfold pushed, compact. apply List.Forall_forall. intros p Hp.
  rewrite <- list_elem_of_In in Hp. apply list_elem_of_filter in Hp. tauto.
Qed.

Lemma length_pushed (name : prim) (keys : list prim) :
  length (pushed name keys) <= length keys + 1.
Proof.
  unfold pushed, compact.
  etransitivity; [apply length_filter|]. rewrite length_app. simpl. lia.
Qed.

End PushPop.

(** X1: [pop] called with the count [push] returned undoes that [push]: the
    status is the one before, whatever the name and the keys.  Only truthy
    segments are pushed (no [null], [undefined], empty string, 0, [false] or
    [NaN]), so the count is at most the number of keys plus one.  Both
    revisions. *)
Theorem pop_undoes_push (name : prim) (keys : list prim)
    (s : Scoring.Status) (l : Legacy.Status) :
  Scoring.pop (fst (Scoring.push name keys s)) (snd (Scoring.push name keys s)) = s /\
  Legacy.pop (fst (Legacy.push name keys l)) (snd (Legacy.push name keys l)) = l /\
  fst (Scoring.push name keys s) = fst (Legacy.push name keys l) /\
  fst (Scoring.push name keys s) <= length keys + 1 /\
  (exists added,
     Scoring.path (snd (Scoring.push name keys s)) = (Scoring.path s ++ added)%list /\
     Legacy.path (snd (Legacy.push name keys l)) = (Legacy.path l ++ added)%list /\
     length added = fst (Scoring.push name keys s) /\
     Forall (fun p => truthy_prim p = true) added).
Proof.
  repeat split.
  - destruct s as [p d q f]. unfold Scoring.pop, Scoring.push. simpl.
    now rewrite pop_times_app.
  - destruct l as [p d f]. unfold Legacy.pop, Legacy.push. simpl.
    now rewrite pop_times_app.
  - apply length_pushed.
  - exists (pushed name keys). repeat split. apply pushed_truthy.
Qed.

(** X2: [pop(count)] drops the last [count] segments of the path and nothing
    else of the status; asked for more than the stack holds, it empties the
    stack and raises nothing.  Both revisions. *)
Theorem pop_drops_last_segments (count : nat) (s : Scoring.Status) (l : Legacy.Status) :
  (Scoring.path (Scoring.pop count s) =
     take (length (Scoring.path s) - count) (Scoring.path s) /\
   Scoring.defs (Scoring.pop count s) = Scoring.defs s /\
   Scoring.quality (Scoring.pop count s) = Scoring.quality s /\
   Scoring.failures (Scoring.pop count s) = Scoring.failures s /\
   (length (Scoring.path s) <= count -> Scoring.path (Scoring.pop count s) = [])) /\
  (Legacy.path (Legacy.pop count l) =
     take (length (Legacy.path l) - count) (Legacy.path l) /\
   Legacy.defs (Legacy.pop count l) = Legacy.defs l /\
   Legacy.failures (Legacy.pop count l) = Legacy.failures l /\
   (length (Legacy.path l) <= count -> Legacy.path (Legacy.pop count l) = [])).
Proof.
  unfold Scoring.pop, Legacy.pop. simpl. rewrite !pop_times_take.
  repeat split; try reflexivity.
  - intros Hle. replace (length (Scoring.path s) - count) with 0 by lia. reflexivity.
  - intros Hle. replace (length (Legacy.path l) - count) with 0 by lia. reflexivity.
Qed.

(** ** The failures list *)

Section Failures.

Lemma record_failure_covers (p : string) (fs : list string) :
  exists f, List.In f (record_failure p fs) /\ startsWith f p = true.
Proof.
  unfold record_failure. destruct (existsb _ fs) eqn:E.
  - apply existsb_exists in E. exact E.
  - exists p. split; [apply in_or_app; right; now left|apply prefix_refl].
Qed.

Lemma record_failure_again (p : string) (fs : list string) :
  record_failure p (record_failure p fs) = record_failure p fs.
Proof. apply record_failure_skip, record_failure_covers. Qed.

Lemma record_failure_extends (p : string) (fs : list string) :
  record_failure p fs = fs \/ record_failure p fs = (fs ++ [p])%list.
Proof. unfold record_failure. destruct (existsb _ fs); auto. Qed.

Lemma settled_nil : settled [].
Proof. intros pre f post E. destruct pre; discriminate. Qed.

Lemma settled_init (fs : list string) (x : string) :
  settled (fs ++ [x]) -> settled fs.
Proof.
  intros Hs pre f post E g Hg.
  apply (Hs pre f (post ++ [x])%list); [|exact Hg].
  rewrite E, <- app_assoc. reflexivity.
Qed.

Lemma record_failure_settled (p : string) (fs : list string) :
  settled fs -> settled (record_failure p fs).
Proof.
  intros Hs. unfold record_failure. destruct (existsb _ fs) eqn:E; [exact Hs|].
  intros pre f post Eq g Hg.
  destruct post as [|x post _] using rev_ind.
  - apply app_inj_tail in Eq as [-> ->].
    destruct (startsWith g f) eqn:Hgf; [|reflexivity].
    assert (existsb (fun failure => startsWith failure f) pre = true)
      by (apply existsb_exists; eauto).
    congruence.
  - change (pre ++ f :: post ++ [x])%list with (pre ++ (f :: post) ++ [x])%list in Eq.
    rewrite app_assoc in Eq. apply app_inj_tail in Eq as [Eq _].
    now apply (Hs pre f post).
Qed.

Lemma settled_NoDup (fs : list string) : settled fs -> NoDup fs.
Proof.
  induction fs as [|x fs IH] using rev_ind; intros Hs.
  - constructor.
  - apply NoDup_app. split; [apply IH; now apply settled_init with x|].
    split; [|apply NoDup_singleton].
    intros y Hy Hx. apply list_elem_of_singleton in Hx as ->.
    apply list_elem_of_In in Hy.
    specialize (Hs fs x [] eq_refl x Hy).
    unfold startsWith in Hs. rewrite prefix_refl in Hs. discriminate.
Qed.

Lemma grows_trans (a b c : list string) : grows a b -> grows b c -> grows a c.
Proof. intros Hab Hbc. induction Hbc; [exact Hab|now constructor]. Qed.

Lemma grows_settled (fs fs' : list string) : grows fs fs' -> settled fs -> settled fs'.
Proof. induction 1; [auto|]. intros Hs. now apply record_failure_settled, IHgrows. Qed.

Lemma grows_extends (fs fs' : list string) :
  grows fs fs' -> exists added, fs' = (fs ++ added)%list.
Proof.
  induction 1 as [|p fs' _ [added ->]].
  - exists []. now rewrite app_nil_r.
  - destruct (record_failure_extends p (fs ++ added)) as [-> | ->].
    + now exists added.
    + exists (added ++ [p])%list. now rewrite app_assoc.
Qed.

End Failures.

(** X3: recording a failure twice at the same path is recording it once, and
    a failures list in which no entry starts with a later one stays so when a
    failure is recorded, so it never holds the same path twice.  This holds
    of [succeeded] with a false result and of the earlier [failed]; a new
    status starts with such a list. *)
Theorem recording_keeps_failures_settled (w w' : option float)
    (s : Scoring.Status) (l : Legacy.Status) :
  let s1 := snd (Scoring.succeeded false w s) in
  let l1 := snd (Legacy.failed l) in
  Scoring.failures (snd (Scoring.succeeded false w' s1)) = Scoring.failures s1 /\
  Legacy.failures (snd (Legacy.failed l1)) = Legacy.failures l1 /\
  (settled (Scoring.failures s) ->
     settled (Scoring.failures s1) /\ NoDup (Scoring.failures s1)) /\
  (settled (Legacy.failures l) ->
     settled (Legacy.failures l1) /\ NoDup (Legacy.failures l1)) /\
  settled (Scoring.failures (Scoring.new_Status None)) /\
  settled (Legacy.failures Legacy.new_Status).
Proof.
  cbv zeta. unfold Scoring.succeeded, Legacy.failed. simpl. repeat split.
  - apply record_failure_again.
  - apply record_failure_again.
  - now apply record_failure_settled.
  - now apply settled_NoDup, record_failure_settled.
  - now apply record_failure_settled.
  - now apply settled_NoDup, record_failure_settled.
  - apply settled_nil.
  - apply settled_nil.
Qed.

(** ** What a call leaves in the status *)

Section Frame.
Import Scoring.

Lemma framed_refl (s : Status) : framed s s.
Proof. repeat split. constructor. Qed.

Lemma framed_trans (a b c : Status) : framed a b -> framed b c -> framed a c.
Proof.
  intros (Hp & Hd & Hf) (Hp' & Hd' & Hf'). repeat split; try congruence.
  now apply grows_trans with (failures b).
Qed.

Lemma failures_succeeded (result : bool) (weight : option float) (s : Status) :
  failures (snd (succeeded result weight s)) =
  if result then failures s else record_failure (join (path s)) (failures s).
Proof. unfold succeeded. destruct result; reflexivity. Qed.

Lemma defs_succeeded (result : bool) (weight : option float) (s : Status) :
  defs (snd (succeeded result weight s)) = defs s.
Proof. unfold succeeded. destruct result; reflexivity. Qed.

(** The wrapper keeps to the discipline when its raw method does. *)
Lemma wrapper_framed (raw : RawChecker) (name : prim) (weight : option float)
    (m : MethodName) (v : value) (status : option Status) (keys : list prim) (h : Heap) :
  framed (entered name keys status) (st (raw_method raw m v (entered name keys status) h)) ->
  framed (default (new_Status None) status)
    (st (bindStatus raw name weight m v status keys h)).
Proof.
  intros (Hp & Hd & Hf).
  set (r := raw_method raw m v (entered name keys status) h) in *.
  assert (Hpath : pop_times (length (pushed name keys)) (path (st r)) =
                  path (default (new_Status None) status)).
  { rewrite Hp. unfold entered, push. cbn [snd path]. apply pop_times_app. }
  assert (Hfail : grows (failures (default (new_Status None) status)) (failures (st r)))
    by exact Hf.
  assert (Hdefs : defs (st r) = defs (default (new_Status None) status)) by exact Hd.
  destruct (res r) as [result|err] eqn:E.
  - rewrite (bindStatus_returns _ _ _ _ _ _ _ _ result E). fold r.
    unfold pop. cbn [st path defs failures].
    rewrite (path_succeeded weight), defs_succeeded, failures_succeeded.
    repeat split; [exact Hpath|exact Hdefs|].
    destruct (match m with matches_ => truthy result | _ => true end);
      [exact Hfail|now constructor].
  - destruct (message_of (hp r) err) as [message|] eqn:Em.
    + rewrite (bindStatus_throws_message _ _ _ _ _ _ _ _ err message E Em). fold r.
      unfold pop. cbn [st path defs failures].
      rewrite (path_succeeded weight), defs_succeeded, failures_succeeded.
      repeat split; [exact Hpath|exact Hdefs|now constructor].
    + rewrite (bindStatus_throws_bare _ _ _ _ _ _ _ _ err E Em). fold r.
      unfold pop. cbn [st path defs failures].
      repeat split; [exact Hpath|exact Hdefs|exact Hfail].
Qed.

(** The raw methods of a conjunction keep to the discipline when the methods
    of its operands do. *)
Lemma and_raw_framed (a b : Checker) :
  (forall m v s keys h, framed s (st (method a m v (Some s) keys h))) ->
  (forall m v s keys h, framed s (st (method b m v (Some s) keys h))) ->
  forall m v s h, framed s (st (raw_method (and_raw a b) m v s h)).
Proof.
  intros Ha Hb m v s0 h.
  destruct m; cbn [raw_method].
  - rewrite and_raw_matches. cbv zeta.
    pose proof (Ha matches_ v s0 [] h) as H1. cbn [method] in H1.
    destruct (res (matches a v (Some s0) [] h)) as [r1|e]; [|exact H1].
    destruct (truthy r1); [|exact H1].
    pose proof (Ha cast_ v (st (matches a v (Some s0) [] h)) []
                  (hp (matches a v (Some s0) [] h))) as H2.
    cbn [method] in H2.
    destruct (res (cast a v _ [] _)) as [c|e].
    + eapply framed_trans; [exact H1|]. eapply framed_trans; [exact H2|].
      apply (Hb matches_).
    + eapply framed_trans; [exact H1|exact H2].
  - rewrite and_raw_cast. cbv zeta.
    pose proof (Ha cast_ v s0 [] h) as H1. cbn [method] in H1.
    destruct (res (cast a v (Some s0) [] h)) as [c|e]; [|exact H1].
    eapply framed_trans; [exact H1|]. apply (Hb cast_).
  - rewrite and_raw_validate. cbv zeta.
    pose proof (Ha validate_ v s0 [] h) as H1. cbn [method] in H1.
    destruct (res (validate a v (Some s0) [] h)) as [c|e]; [|exact H1].
    eapply framed_trans; [exact H1|]. apply (Hb validate_).
Qed.

Context `{Host} `{Checks}.

(** Every call on a tree with inert leaves keeps to the discipline. *)
Lemma tree_framed (t : Tree) :
  inert t ->
  forall m v status keys h,
    framed (default (new_Status None) status)
      (st (method (checker_of t) m v status keys h)).
Proof.
  induction t as [raw name weight|lhs IHl rhs IHr]; intros Hi m v status keys h.
  - cbn [checker_of]. rewrite method_check. apply wrapper_framed.
    cbn [inert] in Hi. rewrite Hi. apply framed_refl.
  - destruct Hi as [Hl Hr].
    cbn [checker_of]. unfold and_. cbn [as_ as1]. rewrite method_check.
    apply wrapper_framed. apply and_raw_framed.
    + intros m' v' s' keys' h'. apply (IHl Hl m' v' (Some s') keys' h').
    + intros m' v' s' keys' h'. apply (IHr Hr m' v' (Some s') keys' h').
Qed.

(** The raw method at the root of a tree with inert leaves hands the path
    stack back as it got it. *)
Lemma root_path_kept (t : Tree) :
  inert t ->
  exists raw weight,
    checker_of t = check raw (root_name t) weight /\
    forall m v s h, framed s (st (raw_method raw m v s h)).
Proof.
  destruct t as [raw name weight|lhs rhs]; intros Hi.
  - exists raw, weight. split; [reflexivity|].
    intros m v s h. cbn [inert] in Hi. rewrite Hi. apply framed_refl.
  - destruct Hi as [Hl Hr].
    exists (and_raw (checker_of lhs) (checker_of rhs)), (Some 0%float).
    split; [reflexivity|].
    apply and_raw_framed.
    + intros m' v' s' keys' h'. apply (tree_framed lhs Hl m' v' (Some s') keys' h').
    + intros m' v' s' keys' h'. apply (tree_framed rhs Hr m' v' (Some s') keys' h').
Qed.

End Frame.

(** X4: after any call on a tree of hydrated checkers and conjunctions whose
    raw leaf methods do not use the status, the path stack holds the very
    segments it held before (not only as many), and the definitions are
    untouched, whether the call returned or threw. *)
Theorem call_restores_path_and_defs
    (host : Host) (checks : Scoring.Checks) (t : Tree) (m : Scoring.MethodName)
    (v : value) (status : option Scoring.Status) (keys : list prim) (h : Heap) :
  inert t ->
  let before := default (Scoring.new_Status None) status in
  let after := Scoring.st (Scoring.method (checker_of t) m v status keys h) in
  Scoring.path after = Scoring.path before /\ Scoring.defs after = Scoring.defs before.
Proof.
  intros Hi before after.
  destruct (tree_framed t Hi m v status keys h) as (Hp & Hd & _). now split.
Qed.

(** X5: a call on such a tree never removes or reorders recorded failures:
    the failures after it are the failures before it followed by the ones it
    added.  If no entry started with a later one before the call, none does
    after it, so no path is recorded twice; this is so in particular when the
    call was made without a status. *)
Theorem call_only_appends_failures
    (host : Host) (checks : Scoring.Checks) (t : Tree) (m : Scoring.MethodName)
    (v : value) (status : option Scoring.Status) (keys : list prim) (h : Heap) :
  inert t ->
  let before := Scoring.failures (default (Scoring.new_Status None) status) in
  let after :=
    Scoring.failures (Scoring.st (Scoring.method (checker_of t) m v status keys h)) in
  (exists added, after = (before ++ added)%list) /\
  (settled before -> settled after /\ NoDup after) /\
  (status = None -> settled after /\ NoDup after).
Proof.
  intros Hi before after.
  destruct (tree_framed t Hi m v status keys h) as (_ & _ & Hg).
  split; [now apply grows_extends|].
  assert (Hs : settled before -> settled after /\ NoDup after).
  { intros Hb. assert (settled after) by now apply (grows_settled before).
    split; [assumption|now apply settled_NoDup]. }
  split; [exact Hs|].
  intros ->. apply Hs. apply settled_nil.
Qed.

(** ** Messages of annotated errors *)

Section Nested.

Lemma append_not_empty (a b : string) : a <> "" -> a +:+ b <> "".
Proof. destruct a as [|c a]; [congruence|]. intros _. rewrite append_cons. discriminate. Qed.

Lemma message_of_set_message (h : Heap) (err : loc) (text : string) (e : ErrorObj) :
  errors h !! err = Some e -> text <> "" ->
  message_of (set_message err text h) err = Some text.
Proof.
  intros He Ht. destruct (set_message_spec h err text e He) as (Hs & _).
  unfold message_of. rewrite Hs. cbn [err_message].
  apply String.eqb_neq in Ht. now rewrite Ht.
Qed.

(** Annotating an error that has a message leaves it with the longer one. *)
Lemma message_of_annotated (h : Heap) (err : loc) (message suffix : string) :
  message_of h err = Some message ->
  message_of (set_message err (message +:+ suffix) h) err = Some (message +:+ suffix).
Proof.
  intros Hm. destruct (message_of_Some h err message Hm) as (e & He & _ & Hne).
  apply (message_of_set_message h err _ e He). now apply append_not_empty.
Qed.

End Nested.

(** ** What the failures say about the verdict *)

Section Verdict.
Import Scoring.

Lemma passes_res (m : MethodName) (a b : Result value) :
  res a = res b -> passes m a = passes m b.
Proof. unfold passes. now intros ->. Qed.

(** A wrapped call that passes records nothing of its own. *)
Lemma wrapper_passes_failures (raw : RawChecker) (name : prim) (weight : option float)
    (m : MethodName) (v : value) (status : option Status) (keys : list prim) (h : Heap) :
  passes m (bindStatus raw name weight m v status keys h) = true ->
  failures (st (bindStatus raw name weight m v status keys h)) =
  failures (st (raw_method raw m v (entered name keys status) h)).
Proof.
  intros Hp.
  rewrite (passes_res m _ (raw_method raw m v (entered name keys status) h)) in Hp
    by apply res_bindStatus.
  unfold passes in Hp.
  destruct (res (raw_method raw m v (entered name keys status) h)) as [result|err] eqn:E;
    [|discriminate].
  rewrite (bindStatus_returns _ _ _ _ _ _ _ _ result E).
  unfold pop. cbn [st failures]. rewrite failures_succeeded, Hp. reflexivity.
Qed.

(** A wrapped call that does not pass, and not by an error without message,
    leaves a failure that starts with the path of the call. *)
Lemma wrapper_rejects_covered (raw : RawChecker) (name : prim) (weight : option float)
    (m : MethodName) (v : value) (status : option Status) (keys : list prim) (h : Heap) :
  let r := raw_method raw m v (entered name keys status) h in
  let out := bindStatus raw name weight m v status keys h in
  passes m out = false ->
  (forall err, res out = Thrown err -> message_of (hp out) err <> None) ->
  exists f, List.In f (failures (st out)) /\ startsWith f (join (path (st r))) = true.
Proof.
  intros r out Hp Hmsg.
  rewrite (passes_res m _ r) in Hp by apply res_bindStatus.
  unfold passes in Hp. subst out.
  destruct (res r) as [result|err] eqn:E.
  - rewrite (bindStatus_returns _ _ _ _ _ _ _ _ result E). fold r.
    unfold pop. cbn [st failures]. rewrite failures_succeeded, Hp.
    apply record_failure_covers.
  - destruct (message_of (hp r) err) as [message|] eqn:Em.
    + rewrite (bindStatus_throws_message _ _ _ _ _ _ _ _ err message E Em). fold r.
      unfold pop. cbn [st failures]. rewrite failures_succeeded.
      apply record_failure_covers.
    + exfalso. apply (Hmsg err).
      * now rewrite res_bindStatus.
      * rewrite (bindStatus_throws_bare _ _ _ _ _ _ _ _ err E Em). exact Em.
Qed.

(** A conjunction's raw method that passes has recorded nothing when the
    passing calls of its operands record nothing. *)
Lemma and_raw_passes_failures (a b : Checker) :
  (forall m v s keys h, passes m (method a m v (Some s) keys h) = true ->
     failures (st (method a m v (Some s) keys h)) = failures s) ->
  (forall m v s keys h, passes m (method b m v (Some s) keys h) = true ->
     failures (st (method b m v (Some s) keys h)) = failures s) ->
  forall m v s h,
    passes m (raw_method (and_raw a b) m v s h) = true ->
    failures (st (raw_method (and_raw a b) m v s h)) = failures s.
Proof.
  intros Ha Hb m v s h.
  destruct m; cbn [raw_method].
  - rewrite and_raw_matches. cbv zeta.
    pose proof (Ha matches_ v s [] h) as H1. cbn [method] in H1.
    unfold passes at 1 in H1.
    destruct (res (matches a v (Some s) [] h)) as [r1|e] eqn:Ea; [|discriminate].
    destruct (truthy r1) eqn:Ht; [|unfold passes; cbn [res]; rewrite Ht; discriminate].
    pose proof (Ha cast_ v (st (matches a v (Some s) [] h)) []
                  (hp (matches a v (Some s) [] h))) as H2.
    cbn [method] in H2. unfold passes at 1 in H2.
    destruct (res (cast a v _ [] _)) as [c|e] eqn:Ec; [|discriminate].
    intros Hp. pose proof (Hb matches_ _ _ _ _ Hp) as H3. cbn [method] in H3. rewrite H3.
    rewrite (H2 eq_refl). exact (H1 eq_refl).
  - rewrite and_raw_cast. cbv zeta.
    pose proof (Ha cast_ v s [] h) as H1. cbn [method] in H1.
    unfold passes at 1 in H1.
    destruct (res (cast a v (Some s) [] h)) as [c|e] eqn:Ea; [|discriminate].
    intros Hp. pose proof (Hb cast_ _ _ _ _ Hp) as H3. cbn [method] in H3. rewrite H3. exact (H1 eq_refl).
  - rewrite and_raw_validate. cbv zeta.
    pose proof (Ha validate_ v s [] h) as H1. cbn [method] in H1.
    unfold passes at 1 in H1.
    destruct (res (validate a v (Some s) [] h)) as [c|e] eqn:Ea; [|discriminate].
    intros Hp. pose proof (Hb validate_ _ _ _ _ Hp) as H3. cbn [method] in H3. rewrite H3. exact (H1 eq_refl).
Qed.

(** A wrapped call that throws an error left without a message got it so
    from its raw method, and records nothing. *)
Lemma wrapper_bare_failures (raw : RawChecker) (name : prim) (weight : option float)
    (m : MethodName) (v : value) (status : option Status) (keys : list prim) (h : Heap)
    (err : loc) :
  let r := raw_method raw m v (entered name keys status) h in
  let out := bindStatus raw name weight m v status keys h in
  res out = Thrown err -> message_of (hp out) err = None ->
  res r = Thrown err /\ message_of (hp r) err = None /\
  failures (st out) = failures (st r).
Proof.
  intros r out E Em. subst out.
  rewrite res_bindStatus in E. fold r in E.
  destruct (message_of (hp r) err) as [message|] eqn:Emr.
  - exfalso.
    rewrite (bindStatus_throws_message _ _ _ _ _ _ _ _ err message E Emr) in Em.
    cbn [hp] in Em. fold r in Em.
    rewrite (message_of_annotated (hp r) err message _ Emr) in Em. discriminate.
  - rewrite (bindStatus_throws_bare _ _ _ _ _ _ _ _ err E Emr). fold r.
    split; [exact E|]. split; reflexivity.
Qed.

(** A conjunction's raw method that throws an error without a message has
    recorded nothing, when the calls of its operands that pass or throw such
    an error record nothing. *)
Lemma and_raw_bare_failures (a b : Checker) :
  (forall m v s keys h, passes m (method a m v (Some s) keys h) = true ->
     failures (st (method a m v (Some s) keys h)) = failures s) ->
  (forall m v s keys h err,
     res (method a m v (Some s) keys h) = Thrown err ->
     message_of (hp (method a m v (Some s) keys h)) err = None ->
     failures (st (method a m v (Some s) keys h)) = failures s) ->
  (forall m v s keys h err,
     res (method b m v (Some s) keys h) = Thrown err ->
     message_of (hp (method b m v (Some s) keys h)) err = None ->
     failures (st (method b m v (Some s) keys h)) = failures s) ->
  forall m v s h err,
    res (raw_method (and_raw a b) m v s h) = Thrown err ->
    message_of (hp (raw_method (and_raw a b) m v s h)) err = None ->
    failures (st (raw_method (and_raw a b) m v s h)) = failures s.
Proof.
  intros Pa Ba Bb m v s h err.
  destruct m; cbn [raw_method].
  - rewrite and_raw_matches. cbv zeta.
    pose proof (Pa matches_ v s [] h) as P1. pose proof (Ba matches_ v s [] h) as B1.
    cbn [method] in P1, B1. unfold passes at 1 in P1.
    destruct (res (matches a v (Some s) [] h)) as [r1|e] eqn:Ea.
    + destruct (truthy r1) eqn:Ht; [|cbn [res]; discriminate].
      pose proof (Pa cast_ v (st (matches a v (Some s) [] h)) []
                    (hp (matches a v (Some s) [] h))) as P2.
      pose proof (Ba cast_ v (st (matches a v (Some s) [] h)) []
                    (hp (matches a v (Some s) [] h))) as B2.
      cbn [method] in P2, B2. unfold passes at 1 in P2.
      destruct (res (cast a v _ [] _)) as [c|e] eqn:Ec.
      * intros E Em. pose proof (Bb matches_ _ _ _ _ err E Em) as B3.
        cbn [method] in B3. rewrite B3, (P2 eq_refl). exact (P1 eq_refl).
      * cbn [res st hp]. intros [= ->] Em. rewrite (B2 err eq_refl Em).
        exact (P1 eq_refl).
    + cbn [res st hp]. intros [= ->] Em. exact (B1 err eq_refl Em).
  - rewrite and_raw_cast. cbv zeta.
    pose proof (Pa cast_ v s [] h) as P1. pose proof (Ba cast_ v s [] h) as B1.
    cbn [method] in P1, B1. unfold passes at 1 in P1.
    destruct (res (cast a v (Some s) [] h)) as [c|e] eqn:Ea.
    + intros E Em. pose proof (Bb cast_ _ _ _ _ err E Em) as B3.
      cbn [method] in B3. rewrite B3. exact (P1 eq_refl).
    + cbn [res st hp]. intros [= ->] Em. exact (B1 err eq_refl Em).
  - rewrite and_raw_validate. cbv zeta.
    pose proof (Pa validate_ v s [] h) as P1. pose proof (Ba validate_ v s [] h) as B1.
    cbn [method] in P1, B1. unfold passes at 1 in P1.
    destruct (res (validate a v (Some s) [] h)) as [c|e] eqn:Ea.
    + intros E Em. pose proof (Bb validate_ _ _ _ _ err E Em) as B3.
      cbn [method] in B3. rewrite B3. exact (P1 eq_refl).
    + cbn [res st hp]. intros [= ->] Em. exact (B1 err eq_refl Em).
Qed.

Context `{Host} `{Checks}.

Lemma tree_passes_failures (t : Tree) :
  inert t ->
  forall m v status keys h,
    passes m (method (checker_of t) m v status keys h) = true ->
    failures (st (method (checker_of t) m v status keys h)) =
    failures (default (new_Status None) status).
Proof.
  induction t as [raw name weight|lhs IHl rhs IHr]; intros Hi m v status keys h.
  - cbn [checker_of]. rewrite method_check. intros Hp.
    rewrite (wrapper_passes_failures _ _ _ _ _ _ _ _ Hp).
    cbn [inert] in Hi. rewrite Hi. reflexivity.
  - destruct Hi as [Hl Hr].
    cbn [checker_of]. unfold and_. cbn [as_ as1]. rewrite method_check. intros Hp.
    rewrite (wrapper_passes_failures _ _ _ _ _ _ _ _ Hp).
    rewrite (passes_res m _ (raw_method (and_raw (checker_of lhs) (checker_of rhs)) m v
                               (entered PNull keys status) h)) in Hp
      by apply res_bindStatus.
    rewrite (and_raw_passes_failures (checker_of lhs) (checker_of rhs)); [reflexivity| | |exact Hp].
    + intros m' v' s' keys' h'. apply (IHl Hl m' v' (Some s') keys' h').
    + intros m' v' s' keys' h'. apply (IHr Hr m' v' (Some s') keys' h').
Qed.

Lemma tree_bare_failures (t : Tree) :
  inert t ->
  forall m v status keys h err,
    res (method (checker_of t) m v status keys h) = Thrown err ->
    message_of (hp (method (checker_of t) m v status keys h)) err = None ->
    failures (st (method (checker_of t) m v status keys h)) =
    failures (default (new_Status None) status).
Proof.
  induction t as [raw name weight|lhs IHl rhs IHr]; intros Hi m v status keys h err.
  - cbn [checker_of]. rewrite method_check. intros E Em.
    destruct (wrapper_bare_failures _ _ _ _ _ _ _ _ err E Em) as (_ & _ & ->).
    cbn [inert] in Hi. rewrite Hi. reflexivity.
  - destruct Hi as [Hl Hr].
    cbn [checker_of]. unfold and_. cbn [as_ as1]. rewrite method_check. intros E Em.
    destruct (wrapper_bare_failures _ _ _ _ _ _ _ _ err E Em) as (Er & Emr & ->).
    rewrite (and_raw_bare_failures (checker_of lhs) (checker_of rhs)) with (err := err);
      [reflexivity| | | |exact Er|exact Emr].
    + intros m' v' s' keys' h'. apply (tree_passes_failures lhs Hl m' v' (Some s') keys' h').
    + intros m' v' s' keys' h'. apply (IHl Hl m' v' (Some s') keys' h').
    + intros m' v' s' keys' h'. apply (IHr Hr m' v' (Some s') keys' h').
Qed.

End Verdict.

(** X6: on a tree of hydrated checkers and conjunctions whose raw leaf
    methods do not use the status, the failures tell the verdict.  A call
    that passes (returns, and not a falsy answer to [matches]) leaves the
    failures as they were, and so does a call that throws an error without a
    message.  Any other call leaves a failure that starts with its own path:
    the caller's path, the keys and the name of the checker.  So, called
    without a status, the call leaves no failure exactly when it passes or
    throws an error without a message; if the errors it may throw all carry
    a message, it passes exactly when no failure is recorded. *)
Theorem failures_tell_the_verdict
    (host : Host) (checks : Scoring.Checks) (t : Tree) (m : Scoring.MethodName)
    (v : value) (status : option Scoring.Status) (keys : list prim) (h : Heap) :
  inert t ->
  let before := default (Scoring.new_Status None) status in
  let out := Scoring.method (checker_of t) m v status keys h in
  let with_message :=
    forall err, Scoring.res out = Thrown err -> message_of (Scoring.hp out) err <> None in
  let without_message :=
    exists err, Scoring.res out = Thrown err /\ message_of (Scoring.hp out) err = None in
  (passes m out = true -> Scoring.failures (Scoring.st out) = Scoring.failures before) /\
  (passes m out = false -> with_message ->
     exists f, List.In f (Scoring.failures (Scoring.st out)) /\
       startsWith f (join (Scoring.path before ++ pushed (root_name t) keys)) = true) /\
  (status = None -> with_message ->
     (passes m out = true <-> Scoring.failures (Scoring.st out) = [])) /\
  (without_message -> Scoring.failures (Scoring.st out) = Scoring.failures before) /\
  (status = None ->
     (Scoring.failures (Scoring.st out) = [] <-> passes m out = true \/ without_message)).
Proof.
  intros Hi before out with_message without_message.
  assert (Hpass : passes m out = true ->
                  Scoring.failures (Scoring.st out) = Scoring.failures before)
    by apply (tree_passes_failures t Hi).
  assert (Hbare : without_message ->
                  Scoring.failures (Scoring.st out) = Scoring.failures before).
  { intros (err & E & Em). exact (tree_bare_failures t Hi m v status keys h err E Em). }
  assert (Hrej : passes m out = false -> with_message ->
     exists f, List.In f (Scoring.failures (Scoring.st out)) /\
       startsWith f (join (Scoring.path before ++ pushed (root_name t) keys)) = true).
  { subst out with_message. cbv zeta.
    destruct (root_path_kept t Hi) as (raw & weight & -> & Hraw).
    rewrite method_check. intros Hp Hmsg.
    destruct (wrapper_rejects_covered raw (root_name t) weight m v status keys h Hp Hmsg)
      as (f & Hin & Hf).
    exists f. split; [exact Hin|].
    destruct (Hraw m v (entered (root_name t) keys status) h) as (Hpath & _).
    rewrite Hpath in Hf. exact Hf. }
  split; [exact Hpass|]. split; [exact Hrej|].
  split; [|split; [exact Hbare|]].
  - intros -> Hmsg. split.
    + intros Hp. now rewrite (Hpass Hp).
    + intros Hnone. destruct (passes m out) eqn:Hp; [reflexivity|].
      destruct (Hrej eq_refl Hmsg) as (f & Hin & _).
      rewrite Hnone in Hin. destruct Hin.
  - intros ->. split.
    + intros Hnone. destruct (passes m out) eqn:Hp; [now left|]. right.
      destruct (Scoring.res out) as [result|err] eqn:E.
      * exfalso. assert (Hmsg : with_message).
        { subst with_message. cbv beta. intros err' E'. congruence. }
        destruct (Hrej eq_refl Hmsg) as (f & Hin & _).
        rewrite Hnone in Hin. destruct Hin.
      * destruct (message_of (Scoring.hp out) err) as [message|] eqn:Em.
        -- exfalso. assert (Hmsg : with_message).
           { subst with_message. cbv beta. intros err' E' Hn.
             assert (err' = err) by congruence. subst err'. congruence. }
           destruct (Hrej eq_refl Hmsg) as (f & Hin & _).
           rewrite Hnone in Hin. destruct Hin.
        -- exists err. split; [first [exact E|reflexivity]|exact Em].
    + intros [Hp|Hb]; [now rewrite (Hpass Hp)|now rewrite (Hbare Hb)].
Qed.

(** ** Conjunction: cast and validate *)

Section Sequence.
Import Scoring.

(** The wrapper sees its raw checker only through the call it makes. *)
Lemma bindStatus_ext (raw raw' : RawChecker) (name : prim) (weight : option float)
    (m : MethodName) (v : value) (status : option Status) (keys : list prim) (h : Heap) :
  raw_method raw m v (entered name keys status) h =
  raw_method raw' m v (entered name keys status) h ->
  bindStatus raw name weight m v status keys h =
  bindStatus raw' name weight m v status keys h.
Proof.
  unfold bindStatus, entered, push. cbn [snd]. intros E. rewrite E. reflexivity.
Qed.

Lemma and_raw_later (a b : Checker) (validating : bool) (v : value) (s : Status) (h : Heap) :
  let m := if validating then validate_ else cast_ in
  raw_method (and_raw a b) m v s h =
  let ra := method a m v (Some s) [] h in
  match res ra with
  | Normal c => method b m c (Some (st ra)) [name a] (hp ra)
  | Thrown e => mkResult (Thrown e) (st ra) (hp ra)
  end.
Proof. destruct validating; reflexivity. Qed.

End Sequence.

(** X7: [a.and(b).cast(v)] is [b.cast(a.cast(v))], and likewise for
    [validate]: [a]'s method runs first, in the status the conjunction
    entered; when it returns [c], [b]'s method runs on [c] with [a]'s name as
    key, in the status and heap [a] left, and the conjunction returns or
    throws what [b] does; when [a]'s method throws, the conjunction throws
    the same error and its whole outcome is the same for every [b], so [b]
    was not run. *)
Theorem and_cast_and_validate_in_sequence
    (host : Host) (checks : Scoring.Checks) (a b : Scoring.Checker) (validating : bool)
    (v : value) (status : option Scoring.Status) (keys : list prim) (h : Heap) :
  let m := if validating then Scoring.validate_ else Scoring.cast_ in
  let s0 := entered PNull keys status in
  let ra := Scoring.method a m v (Some s0) [] h in
  let out := Scoring.method (Scoring.and_ a [Scoring.WChecker b]) m v status keys h in
  (forall c, Scoring.res ra = Normal c ->
     Scoring.res out =
     Scoring.res (Scoring.method b m c (Some (Scoring.st ra)) [Scoring.name a]
                    (Scoring.hp ra))) /\
  (forall e, Scoring.res ra = Thrown e ->
     Scoring.res out = Thrown e /\
     forall b', Scoring.method (Scoring.and_ a [Scoring.WChecker b']) m v status keys h = out) /\
  (forall result, Scoring.res out = Normal result <->
     exists c, Scoring.res ra = Normal c /\
       Scoring.res (Scoring.method b m c (Some (Scoring.st ra)) [Scoring.name a]
                      (Scoring.hp ra)) = Normal result).
Proof.
  intros m s0 ra out.
  assert (Hout : forall b0,
    Scoring.method (Scoring.and_ a [Scoring.WChecker b0]) m v status keys h =
    Scoring.bindStatus (Scoring.and_raw a b0) PNull (Some 0%float) m v status keys h).
  { intros b0. unfold Scoring.and_. cbn [Scoring.as_ Scoring.as1]. now rewrite method_check. }
  assert (Hraw : forall b0,
    Scoring.raw_method (Scoring.and_raw a b0) m v s0 h =
    match Scoring.res ra with
    | Normal c => Scoring.method b0 m c (Some (Scoring.st ra)) [Scoring.name a] (Scoring.hp ra)
    | Thrown e => Scoring.mkResult (Thrown e) (Scoring.st ra) (Scoring.hp ra)
    end) by (intros b0; apply and_raw_later).
  assert (Hres : Scoring.res out =
    Scoring.res (Scoring.raw_method (Scoring.and_raw a b) m v s0 h)).
  { subst out. rewrite Hout. apply res_bindStatus. }
  rewrite Hraw in Hres.
  split; [|split].
  - intros c Ea. now rewrite Hres, Ea.
  - intros e Ea. split; [now rewrite Hres, Ea|].
    intros b'. subst out. rewrite !Hout. apply bindStatus_ext.
    fold s0. rewrite !Hraw, Ea. reflexivity.
  - intros result. rewrite Hres.
    destruct (Scoring.res ra) as [c|e].
    + split.
      * intros E. now exists c.
      * intros (c' & [= <-] & E). exact E.
    + cbn [Scoring.res]. split; [discriminate|]. intros (c' & Hc & _). discriminate.
Qed.

(** ** Errors thrown inside a conjunction *)


(** X8: an error with a message thrown by the raw method of the left operand
    of a conjunction comes out of the conjunction as the same error object,
    annotated once by each wrapper it passed, innermost first: its message is
    followed by [ at ] and the path of the operand (the conjunction's path
    and the operand's name), then by [ at ] and the path of the conjunction
    (the caller's path and the keys); [any] stands for an empty path. *)
Theorem error_in_conjunction_is_annotated_at_both_levels
    (host : Host) (checks : Scoring.Checks) (raw : Scoring.RawChecker) (name : prim)
    (weight : option float) (b : Scoring.Checker) (m : Scoring.MethodName)
    (v : value) (status : option Scoring.Status) (keys : list prim) (h : Heap)
    (err : loc) (message : string) :
  let s0 := entered PNull keys status in
  let s1 := entered name [] (Some s0) in
  let r := Scoring.raw_method raw m v s1 h in
  let out :=
    Scoring.method (Scoring.and_ (Scoring.check raw name weight) [Scoring.WChecker b])
      m v status keys h in
  let at_ (path : list prim) := if String.eqb (join path) "" then "any" else join path in
  Scoring.res r = Thrown err ->
  message_of (Scoring.hp r) err = Some message ->
  Scoring.path (Scoring.st r) = Scoring.path s1 ->
  Scoring.res out = Thrown err /\
  message_of (Scoring.hp out) err =
    Some ((message +:+ " at " +:+ at_ (Scoring.path s1))
            +:+ " at " +:+ at_ (Scoring.path s0)) /\
  Scoring.path s1 = (Scoring.path s0 ++ pushed name [])%list /\
  Scoring.path s0 =
    (Scoring.path (default (Scoring.new_Status None) status) ++ pushed PNull keys)%list.
Proof.
  intros s0 s1 r out at_ E Em Hpath. subst at_. cbv beta.
  change (fun path : list prim => if String.eqb (join path) "" then "any" else join path)
    with (fun path : list prim => or_any (join path)).
  set (a := Scoring.check raw name weight).
  set (ra := Scoring.method a m v (Some s0) [] h).
  assert (Hra : ra = Scoring.mkResult (Thrown err)
            (Scoring.pop (length (pushed name []))
               (snd (Scoring.succeeded false weight (Scoring.st r))))
            (set_message err (message +:+ " at " +:+ or_any (join (Scoring.path s1)))
               (Scoring.hp r))).
  { subst ra a. rewrite method_check.
    rewrite (bindStatus_throws_message _ _ _ _ _ _ _ _ err message E Em).
    fold s1. fold r. now rewrite Hpath. }
  assert (Hraw : Scoring.raw_method (Scoring.and_raw a b) m v s0 h =
                 Scoring.mkResult (Thrown err) (Scoring.st ra) (Scoring.hp ra)).
  { assert (Hres : Scoring.res ra = Thrown err) by now rewrite Hra.
    clear Hra. subst ra. destruct m; cbn [Scoring.raw_method Scoring.method] in *.
    - rewrite and_raw_matches. cbv zeta. now rewrite Hres.
    - rewrite and_raw_cast. cbv zeta. now rewrite Hres.
    - rewrite and_raw_validate. cbv zeta. now rewrite Hres. }
  assert (Hpa : Scoring.path (Scoring.st ra) = Scoring.path s0).
  { subst ra a. rewrite method_check. apply (path_restored _ _ _ _ _ (Some s0)).
    exact Hpath. }
  assert (Hma : message_of (Scoring.hp ra) err =
                Some (message +:+ " at " +:+ or_any (join (Scoring.path s1)))).
  { rewrite Hra. cbn [Scoring.hp]. now apply message_of_annotated. }
  assert (Hout : out = Scoring.bindStatus (Scoring.and_raw a b) PNull (Some 0%float)
                         m v status keys h).
  { subst out. unfold Scoring.and_. cbn [Scoring.as_ Scoring.as1]. now rewrite method_check. }
  assert (Er : Scoring.res (Scoring.raw_method (Scoring.and_raw a b) m v
                              (entered PNull keys status) h) = Thrown err).
  { fold s0. now rewrite Hraw. }
  assert (Emr : message_of (Scoring.hp (Scoring.raw_method (Scoring.and_raw a b) m v
                              (entered PNull keys status) h)) err =
                Some (message +:+ " at " +:+ or_any (join (Scoring.path s1)))).
  { fold s0. rewrite Hraw. exact Hma. }
  rewrite Hout.
  rewrite (bindStatus_throws_message _ _ _ _ _ _ _ _ err _ Er Emr).
  cbn [Scoring.res Scoring.hp]. fold s0. rewrite Hraw. cbn [Scoring.st Scoring.hp].
  rewrite Hpa.
  split; [reflexivity|]. split; [|split; reflexivity].
  now apply message_of_annotated.
Qed.

(** ** The JSON checker's predicate and cast *)

(** X10: [isJson] answers with a truthy value exactly for a string (a
    primitive one or a [String] object) whose text parses to an object, an
    array or a truthy primitive, and the JSON cast returns such a string as
    it is, in the same heap.  A string whose text parses to a falsy value (as
    [0], [null], [false]) is answered with that falsy value, not a boolean,
    and is handed to [JSON.stringify] again; a value that is no string is
    answered with [false] and stringified. *)
Theorem isJson_accepts_only_texts_of_truthy_values (host : Host) (v : value) :
  (truthy (isJson v) = true <->
     exists s, string_text v = Some s /\
       ((exists c, JSON_text s = Some (ParsedObject c)) \/
        (exists p, JSON_text s = Some (ParsedPrim p) /\ truthy_prim p = true))) /\
  (forall h, truthy (isJson v) = true -> json_cast v h = (Normal v, h)) /\
  (forall s p, string_text v = Some s -> JSON_text s = Some (ParsedPrim p) ->
     truthy_prim p = false ->
     isJson v = VPrim p /\ forall h, json_cast v h = JSON_stringify v h) /\
  (isString v = false ->
     isJson v = false_ /\ forall h, json_cast v h = JSON_stringify v h) /\
  (forall s, string_text v = Some s <-> isString v = true /\ String_ v = String_ (VPrim (PStr s))).
Proof.
  split; [|split; [|split; [|split]]].
  - unfold isJson. destruct (string_text v) as [s|] eqn:Hs.
    + destruct (JSON_text s) as [[p|c]|] eqn:E.
      * destruct (truthy_prim p) eqn:Hp.
        -- split; [|reflexivity]. intros _. exists s. split; [reflexivity|].
           right. now exists p.
        -- cbn [truthy]. rewrite Hp. split; [discriminate|].
           intros (s' & [= <-] & [(c & Hc)|(p' & Hp' & Ht)]).
           ++ rewrite E in Hc. discriminate.
           ++ rewrite E in Hp'. injection Hp' as <-. congruence.
      * split; [|reflexivity]. intros _. exists s. split; [reflexivity|].
        left. now exists c.
      * split; [discriminate|].
        intros (s' & [= <-] & [(c & Hc)|(p' & Hp' & _)]); rewrite E in *; discriminate.
    + split; [discriminate|]. intros (s' & [=] & _).
  - intros h Hj. unfold json_cast. now rewrite Hj.
  - intros s p Hs E Hp. assert (Hj : isJson v = VPrim p).
    { unfold isJson. now rewrite Hs, E, Hp. }
    split; [exact Hj|]. intros h. unfold json_cast. rewrite Hj. cbn [truthy].
    now rewrite Hp.
  - intros Hs. assert (Hj : isJson v = false_).
    { unfold isJson. destruct v as [[| |b|n|s]|[] l]; try reflexivity; discriminate. }
    split; [exact Hj|]. intros h. unfold json_cast. now rewrite Hj.
  - intros s. destruct v as [[| |b|n|s']|[] l]; cbn [string_text isString];
      try (split; [discriminate|intros [[=] _]]).
    + split; [now intros [= ->]|]. intros [_ E].
      assert (E' := f_equal (fun f => f empty_heap) E). cbn in E'. congruence.
    + split; [now intros [= ->]|]. intros [_ E].
      assert (E' := f_equal (fun f => f empty_heap) E). cbn in E'. congruence.
Qed.

(** ** The wrapper of the earlier revision *)

(** X11: what a call through the earlier revision's wrapper reports.  It
    passes exactly when its raw method does.  A passing call returns what the
    raw method returned, in the heap it left, records no failure, and, if
    the raw method handed the status back as it got it, leaves the caller's
    status exactly as it was.  A [matches] whose raw method returned a falsy
    value returns [false] itself, whatever the falsy value was.  A call that
    does not pass, unless it threw an error without a message, leaves a
    failure that starts with the path of the call. *)
Theorem legacy_call_reports_its_verdict
    (raw : Legacy.RawChecker) (name : prim) (m : Legacy.MethodName) (v : value)
    (status : option Legacy.Status) (keys : list prim) (h : Heap) :
  let r := Legacy.raw_method raw m v (legacy_entered name keys status) h in
  let out := Legacy.method (Legacy.check raw name) m v status keys h in
  legacy_passes m out = legacy_passes m r /\
  (legacy_passes m r = true ->
     Legacy.res out = Legacy.res r /\ Legacy.hp out = Legacy.hp r /\
     Legacy.failures (Legacy.st out) = Legacy.failures (Legacy.st r) /\
     (Legacy.st r = legacy_entered name keys status ->
      Legacy.st out = default Legacy.new_Status status)) /\
  (forall result, Legacy.res r = Normal result -> legacy_passes m r = false ->
     Legacy.res out = Normal false_) /\
  (legacy_passes m r = false ->
     (forall err, Legacy.res out = Thrown err -> message_of (Legacy.hp out) err <> None) ->
     exists f, List.In f (Legacy.failures (Legacy.st out)) /\
       startsWith f (join (Legacy.path (Legacy.st r))) = true).
Proof.
  intros r out. subst out. rewrite legacy_method_check. unfold legacy_passes.
  destruct (Legacy.res r) as [result|err] eqn:E.
  - destruct (match m with Legacy.matches_ => truthy result | _ => true end) eqn:Hok.
    + rewrite (legacy_bindStatus_passes raw name m v status keys h result E Hok).
      fold r. cbn [Legacy.res Legacy.st Legacy.hp]. rewrite Hok.
      split; [reflexivity|]. split; [|split; [discriminate|discriminate]].
      intros _. repeat split.
      intros ->. unfold legacy_entered, Legacy.push, Legacy.pop. cbn [snd Legacy.path
        Legacy.defs Legacy.failures]. rewrite pop_times_app.
      now destruct (default Legacy.new_Status status).
    + rewrite (legacy_bindStatus_fails raw name m v status keys h result E Hok).
      fold r. cbn [Legacy.res Legacy.st Legacy.hp]. cbn [truthy truthy_prim].
      assert (Hm : m = Legacy.matches_) by (destruct m; congruence).
      subst m. cbn. split; [reflexivity|]. split; [discriminate|].
      split; [reflexivity|]. intros _ _. apply record_failure_covers.
  - split.
    { destruct (message_of (Legacy.hp r) err) as [message|] eqn:Em.
      - now rewrite (legacy_bindStatus_throws_message raw name m v status keys h err message E Em).
      - now rewrite (legacy_bindStatus_throws_bare raw name m v status keys h err E Em). }
    split; [discriminate|]. split; [discriminate|].
    intros _ Hmsg.
    destruct (message_of (Legacy.hp r) err) as [message|] eqn:Em.
    + rewrite (legacy_bindStatus_throws_message raw name m v status keys h err message E Em).
      fold r. cbn. apply record_failure_covers.
    + exfalso.
      rewrite (legacy_bindStatus_throws_bare raw name m v status keys h err E Em) in Hmsg.
      fold r in Hmsg. cbn [Legacy.res Legacy.hp] in Hmsg. exact (Hmsg err eq_refl Em).
Qed.
(** ** Worked examples *)

#[local] Existing Instance sample_host.
#[local] Existing Instance sample_checks.
#[local] Existing Instance sample_legacy_checks.

Section Examples.

(** The spy is not run when the left checker says no, and is run when it
    says yes. *)
Example spy_not_called_after_a_no :
  let out := Scoring.matches (Scoring.and_ Scoring.as_string [Scoring.WChecker spy])
               (num 5) None [] empty_heap in
  Scoring.res out = Normal false_ /\ cells (Scoring.hp out) !! "called" = None.
Proof. split; reflexivity. Qed.

Example spy_called_after_a_yes :
  let out := Scoring.matches (Scoring.and_ Scoring.as_string [Scoring.WChecker spy])
               (VPrim (PStr "x")) None [] empty_heap in
  Scoring.res out = Normal true_ /\ cells (Scoring.hp out) !! "called" = Some true_.
Proof. split; reflexivity. Qed.

(** [as.string.and(Number).matches("x")]: the string checker is asked and
    says yes (+0.5), casts (+0.5), the number checker says no (-0.5), the
    conjunction records its own no at weight 0.  The one failure is the
    number checker's, under the name of the left checker. *)
Example quality_is_the_running_total :
  let out := Scoring.matches (Scoring.and_ Scoring.as_string [Scoring.WBuiltin Scoring.BNumber])
               (VPrim (PStr "x")) None [] empty_heap in
  Scoring.res out = Normal false_ /\
  Scoring.quality (Scoring.st out) = (0 + 0.5 + 0.5 - 0.5 - 0)%float /\
  Scoring.failures (Scoring.st out) = ["string.number"] /\
  Scoring.path (Scoring.st out) = [].
Proof. repeat split; reflexivity. Qed.

(** An error thrown two checkers deep is annotated by each wrapper it
    passes, and the path stack is the caller's again. *)
Example error_annotated_at_each_level :
  let out := Scoring.matches (Scoring.and_ Scoring.as_string [Scoring.WChecker (thrower None)])
               (VPrim (PStr "x")) (Some status_at_root) [PStr "k"] heap_with_boom in
  Scoring.res out = Thrown 0 /\
  errors (Scoring.hp out) !! 0 =
    Some (mkError "Error" (Some "boom at root.k.string.t at root.k")) /\
  Scoring.path (Scoring.st out) = [PStr "root"].
Proof. repeat split; reflexivity. Qed.

(** The ledger of that call: string says yes, string casts, number says no,
    the conjunction records its no at weight 0. *)
Example ledger_of_string_and_number :
  walk (Conj (Hydrated (Scoring.static_raw (Scoring.predicate isString) Scoring.string_cast)
                (PStr "string") (Some 0.5%float))
             (Hydrated (Scoring.static_raw (Scoring.predicate isNumber) Number_)
                (PStr "number") (Some 0.5%float)))
    Scoring.matches_ (VPrim (PStr "x")) None [] empty_heap
  = [(true, Some 0.5%float); (true, Some 0.5%float); (false, Some 0.5%float);
     (false, Some 0%float)].
Proof. reflexivity. Qed.

(** The number checker accepts [NaN] and casts it to itself; [NaN] is not
    strictly equal to itself. *)
Example nan_is_cast_to_itself :
  says_yes (Scoring.matches Scoring.as_number (VPrim (PNum NNaN)) None [] empty_heap) = true /\
  Scoring.res (Scoring.cast Scoring.as_number (VPrim (PNum NNaN)) None [] empty_heap)
    = Normal (VPrim (PNum NNaN)) /\
  strict_equals (VPrim (PNum NNaN)) (VPrim (PNum NNaN)) = false.
Proof. repeat split; reflexivity. Qed.

Example number_to_string_123 : number_to_string (NInt 123) = "123".
Proof. reflexivity. Qed.

Lemma thrower_composed (weight : option float) : Composed (thrower weight).
Proof.
  apply Composed_check. intros m v s h. destruct m; reflexivity.
Qed.

Lemma as_string_composed : Composed Scoring.as_string.
Proof. apply static_composed. Qed.

End Examples.

(** The hypotheses of C3 hold of a conjunction whose right-hand checker
    throws, called with a key inside a caller's path. *)
Lemma path_stack_balance_witness :
  let c := Scoring.and_ Scoring.as_string [Scoring.WChecker (thrower None)] in
  let out := Scoring.matches c (VPrim (PStr "x")) (Some status_at_root) [PStr "k"]
               heap_with_boom in
  Scoring.res out = Thrown 0 /\
  length (Scoring.path (Scoring.st out)) = length (Scoring.path status_at_root).
Proof.
  split; [reflexivity|].
  apply (proj1 path_stack_balance sample_host sample_checks
           (Scoring.and_ Scoring.as_string [Scoring.WChecker (thrower None)])
           (Composed_and Scoring.as_string [Scoring.WChecker (thrower None)]
              as_string_composed (thrower_composed None))
           Scoring.matches_ (VPrim (PStr "x")) (Some status_at_root) [PStr "k"] heap_with_boom).
Defined.

(** The hypotheses of C4 hold of a checker that throws [new Error("boom")],
    called without a status: hydrated under the name [t] its path is [t];
    hydrated without a name its path is empty, and the message ends in
    [ at any]. *)
Lemma thrown_error_annotated_witness :
  let raw :=
    {| Scoring.raw_matches := fun _ => throw 0;
       Scoring.raw_cast := fun value => Scoring.ret value;
       Scoring.raw_validate := fun value => Scoring.ret value |} in
  let named := Scoring.matches (Scoring.check raw (PStr "t") None) undefined None []
                 heap_with_boom in
  let nameless := Scoring.matches (Scoring.check raw PNull None) undefined None []
                    heap_with_boom in
  (Scoring.res named = Thrown 0 /\
   errors (Scoring.hp named) !! 0 = Some (mkError "Error" (Some "boom at t"))) /\
  (Scoring.res nameless = Thrown 0 /\
   errors (Scoring.hp nameless) !! 0 = Some (mkError "Error" (Some "boom at any"))).
Proof.
  cbv zeta. split.
  - destruct (proj1 thrown_error_annotated_in_place
                {| Scoring.raw_matches := fun _ => throw 0;
                   Scoring.raw_cast := fun value => Scoring.ret value;
                   Scoring.raw_validate := fun value => Scoring.ret value |}
                (PStr "t") None Scoring.matches_ undefined None [] heap_with_boom 0 eq_refl)
      as (Hres & Hmessage & _).
    split; [exact Hres|].
    apply (proj1 (Hmessage (mkError "Error" (Some "boom")) "boom" eq_refl eq_refl
                    ltac:(discriminate))).
    discriminate.
  - destruct (proj1 thrown_error_annotated_in_place
                {| Scoring.raw_matches := fun _ => throw 0;
                   Scoring.raw_cast := fun value => Scoring.ret value;
                   Scoring.raw_validate := fun value => Scoring.ret value |}
                PNull None Scoring.matches_ undefined None [] heap_with_boom 0 eq_refl)
      as (Hres & Hmessage & Hempty & _).
    split; [exact Hres|].
    apply (proj1 (proj2 (Hmessage (mkError "Error" (Some "boom")) "boom" eq_refl eq_refl
                           ltac:(discriminate)))).
    apply Hempty. reflexivity.
Defined.

(** The hypotheses of C8 hold of [as.object.and(Boolean)] and the object
    [new Boolean(false)]: it is accepted and cast to [true], not to itself,
    and [true] is cast to [true]. *)
Lemma stock_checkers_witness :
  let c := Scoring.and_ Scoring.as_object [Scoring.WBuiltin Scoring.BBoolean] in
  let v := VObj (CBoolean false) 7 in
  says_yes (Scoring.matches c v None [] empty_heap) = true /\
  (forall s1 k1 h1, Scoring.res (Scoring.cast c v s1 k1 h1) = Normal true_) /\
  (forall s2 k2 h2, Scoring.res (Scoring.cast c true_ s2 k2 h2) = Normal true_).
Proof.
  split; [reflexivity|].
  destruct (proj1 stock_checkers_cast_accepted_values_idempotently sample_host sample_checks
              (Scoring.and_ Scoring.as_object [Scoring.WBuiltin Scoring.BBoolean])
              (Stock_and Scoring.as_object [Scoring.WBuiltin Scoring.BBoolean]
                 (Stock_static Scoring.as_object (or_intror (or_introl eq_refl)))
                 (Stock_static Scoring.as_boolean
                    (or_intror (or_intror (or_intror (or_introl eq_refl))))))
              (VObj (CBoolean false) 7) None [] empty_heap eq_refl)
    as (once & Hfirst & Hsecond & _).
  assert (E : Normal once = Normal true_)
    by (rewrite <- (Hfirst None [] empty_heap); reflexivity).
  injection E as ->. split; [exact Hfirst|exact Hsecond].
Defined.

(** The hypotheses of C2 hold of a status at [a] in which the failure at
    [a.b], one level deeper, is already recorded. *)
Lemma failure_added_unless_witness :
  Scoring.failures
    (snd (Scoring.succeeded false None (Scoring.mkStatus [PStr "a"] ∅ 0%float ["a.b"])))
  = ["a.b"].
Proof.
  apply (proj1 (proj2 (proj2
           (failure_added_unless_recorded_one_starts_with_it
              (Scoring.mkStatus [PStr "a"] ∅ 0%float ["a.b"]) None Legacy.new_Status)))
           [PStr "b"]).
  left. reflexivity.
Defined.

(** The raw methods of a static checker do not see the status. *)
Lemma static_quiet (p : value -> value) (f : value -> HeapOp value) (name : prim)
    (weight : option float) :
  quiet (Hydrated (Scoring.static_raw p f) name weight).
Proof.
  intros m v s h.
  destruct m; cbn [Scoring.raw_method Scoring.static_raw Scoring.raw_matches
                     Scoring.raw_cast Scoring.raw_validate];
    try reflexivity; unfold Scoring.lift; destruct (f v h); reflexivity.
Qed.

(** The hypotheses of C6 hold of the tree of [as.string.and(Number)]: its
    leaves are static checkers, whose raw methods do not see the status. *)
Lemma quality_ledger_witness :
  let t := Conj (Hydrated (Scoring.static_raw (Scoring.predicate isString) Scoring.string_cast)
                   (PStr "string") (Some 0.5%float))
                (Hydrated (Scoring.static_raw (Scoring.predicate isNumber) Number_)
                   (PStr "number") (Some 0.5%float)) in
  Scoring.quality
    (Scoring.st (Scoring.matches (checker_of t) (VPrim (PStr "x")) None [] empty_heap))
  = (0 + 0.5 + 0.5 - 0.5 - 0)%float.
Proof.
  cbv zeta. etransitivity.
  - apply (proj2 quality_moves_by_weight_of_each_recorded_outcome sample_host sample_checks
             (Conj (Hydrated (Scoring.static_raw (Scoring.predicate isString)
                                Scoring.string_cast)
                      (PStr "string") (Some 0.5%float))
                   (Hydrated (Scoring.static_raw (Scoring.predicate isNumber) Number_)
                      (PStr "number") (Some 0.5%float)))
             (conj (static_quiet (Scoring.predicate isString) Scoring.string_cast
                      (PStr "string") (Some 0.5%float))
                   (static_quiet (Scoring.predicate isNumber) Number_
                      (PStr "number") (Some 0.5%float)))
             Scoring.matches_ (VPrim (PStr "x")) None [] empty_heap).
  - reflexivity.
Defined.

(** The [or] of [array_or_checks] takes an array for the descriptions to
    resolve. *)
Lemma array_or_takes_descriptions (c : Legacy.Checker) (ws : list Legacy.What) :
  ws <> [] ->
  @Legacy.or_ array_or_checks c [Legacy.WArray ws] =
  @Legacy.or_ array_or_checks c
    [Legacy.WChecker (@Legacy.as_ sample_host array_or_checks ws)].
Proof.
  destruct ws as [|w [|w' rest]]; [congruence| |]; intros _; reflexivity.
Qed.


(** ** Instances of the further properties *)

(** The raw methods of [all_and_none] do not use the status. *)
Lemma all_and_none_inert : inert all_and_none.
Proof. split; intros [] v s h; reflexivity. Qed.

(** The hypothesis of X4 holds of [all_and_none]: called inside [root] under
    the key [k], it hands the path [root] back. *)
Lemma call_restores_path_and_defs_witness :
  let after :=
    Scoring.st (Scoring.matches (checker_of all_and_none) (num 1) (Some status_at_root)
                  [PStr "k"] empty_heap) in
  Scoring.path after = [PStr "root"] /\ Scoring.defs after = ∅.
Proof.
  exact (call_restores_path_and_defs sample_host sample_checks all_and_none
           Scoring.matches_ (num 1) (Some status_at_root) [PStr "k"] empty_heap
           all_and_none_inert).
Defined.

(** The hypothesis of X5 holds of [all_and_none], called with a status that
    already holds a failure. *)
Lemma call_only_appends_failures_witness :
  let s := Scoring.mkStatus [PStr "root"] ∅ 0%float ["other"] in
  let after :=
    Scoring.failures
      (Scoring.st (Scoring.matches (checker_of all_and_none) (num 1) (Some s)
                     [PStr "k"] empty_heap)) in
  after = ["other"; "root.k.all.none"] /\ exists added, after = ("other" :: added).
Proof.
  split; [reflexivity|].
  exact (proj1 (call_only_appends_failures sample_host sample_checks all_and_none
                  Scoring.matches_ (num 1)
                  (Some (Scoring.mkStatus [PStr "root"] ∅ 0%float ["other"]))
                  [PStr "k"] empty_heap all_and_none_inert)).
Defined.

(** The hypothesis of X6 holds of [all_and_none]: called without a status it
    does not pass, and the failure it leaves starts with its path [k]. *)
Lemma failures_tell_the_verdict_witness :
  let out :=
    Scoring.matches (checker_of all_and_none) (num 1) None [PStr "k"] empty_heap in
  passes Scoring.matches_ out = false /\
  exists f, List.In f (Scoring.failures (Scoring.st out)) /\ startsWith f "k" = true.
Proof.
  split; [reflexivity|].
  apply (proj1 (proj2 (failures_tell_the_verdict sample_host sample_checks all_and_none
                         Scoring.matches_ (num 1) None [PStr "k"] empty_heap
                         all_and_none_inert))).
  - reflexivity.
  - intros err E. discriminate E.
Defined.

(** The hypotheses of X8 hold of the conjunction of a checker that throws
    [new Error("boom")] with [as]: called under the key [k], the message
    names the path of the thrower, then the path of the conjunction. *)
Lemma error_in_conjunction_witness :
  let out :=
    Scoring.matches (Scoring.and_ (thrower None) [Scoring.WChecker Scoring.as_checker])
      (num 1) None [PStr "k"] heap_with_boom in
  Scoring.res out = Thrown 0 /\
  message_of (Scoring.hp out) 0 = Some "boom at k.t at k".
Proof.
  destruct (error_in_conjunction_is_annotated_at_both_levels sample_host sample_checks
              {| Scoring.raw_matches := fun _ => throw 0;
                 Scoring.raw_cast := fun value => Scoring.ret value;
                 Scoring.raw_validate := fun value => Scoring.ret value |}
              (PStr "t") None Scoring.as_checker Scoring.matches_ (num 1) None [PStr "k"]
              heap_with_boom 0 "boom" eq_refl eq_refl eq_refl)
    as (Hres & Hmessage & _).
  split; [exact Hres|exact Hmessage].
Defined.

(** With [json_host], the text [0] parses to the number 0: [isJson] answers
    with that 0, and the JSON cast quotes the text again, where it had cast
    the number 0 to the text [0]. *)
Lemma isJson_witness :
  let text := VPrim (PStr "0") in
  @isJson json_host text = num 0 /\
  @json_cast json_host text empty_heap = (Normal (VPrim (PStr (quoted "0"))), empty_heap) /\
  @json_cast json_host (num 0) empty_heap = (Normal text, empty_heap).
Proof.
  destruct (proj1 (proj2 (proj2 (isJson_accepts_only_texts_of_truthy_values json_host
                                   (VPrim (PStr "0")))))
              "0" (PNum (NInt 0)) eq_refl eq_refl eq_refl) as (Hanswer & Hcast).
  split; [exact Hanswer|]. split; [|reflexivity].
  rewrite Hcast. reflexivity.
Defined.
